(** * TrigExplorer: the angle and wave computations of the two views

    A shallow embedding of the numeric and formatting code of
    [FerrisWheel.tsx] and [FunctionPlotter.tsx], and the properties the
    specification states about it.

    JavaScript numbers are modelled as extended real numbers: [NaN], the two
    infinities and the finite values, the latter carried by Rocq's [R].
    Rounding to binary64, overflow and the sign of zero are idealised away;
    [Math.sin], [Math.cos] and [Math.PI] are the real sine, cosine and pi.
    The one place where accumulated rounding could change what the code does,
    the trip count of the sampling loop, is re-run in binary64 arithmetic
    (module [Binary64]). *)

From Stdlib Require Import Reals Lra Lia ZArith NArith Nnat List String Ascii Bool.
From Stdlib Require Import Floats.PrimFloat.
Import ListNotations.

(** ** JavaScript numbers *)

Module JS.

Local Open Scope R_scope.

Inductive number : Type :=
| NaN
| Infinity (negative : bool)
| Finite (r : R).

Definition Rltb (a b : R) : bool := if Rlt_dec a b then true else false.
Definition Rleb (a b : R) : bool := if Rle_dec a b then true else false.
Definition Reqb (a b : R) : bool := if Req_dec_T a b then true else false.

(** [Math.trunc] on the reals: the integer part, rounding toward zero. *)
Definition Rtrunc (x : R) : Z := if Rle_dec 0 x then Zfloor x else Zceil x.

Definition neg (a : number) : number :=
  match a with
  | NaN => NaN
  | Infinity s => Infinity (negb s)
  | Finite r => Finite (- r)
  end.

Definition add (a b : number) : number :=
  match a, b with
  | NaN, _ | _, NaN => NaN
  | Infinity s, Infinity t => if Bool.eqb s t then Infinity s else NaN
  | Infinity s, Finite _ => Infinity s
  | Finite _, Infinity t => Infinity t
  | Finite x, Finite y => Finite (x + y)
  end.

Definition sub (a b : number) : number :=
  match a, b with
  | NaN, _ | _, NaN => NaN
  | Infinity s, Infinity t => if Bool.eqb s t then NaN else Infinity s
  | Infinity s, Finite _ => Infinity s
  | Finite _, Infinity t => Infinity (negb t)
  | Finite x, Finite y => Finite (x - y)
  end.

Definition mul (a b : number) : number :=
  match a, b with
  | NaN, _ | _, NaN => NaN
  | Infinity s, Infinity t => Infinity (xorb s t)
  | Infinity s, Finite y => if Reqb y 0 then NaN else Infinity (xorb s (Rltb y 0))
  | Finite x, Infinity t => if Reqb x 0 then NaN else Infinity (xorb (Rltb x 0) t)
  | Finite x, Finite y => Finite (x * y)
  end.

(** Zero divisors are read as [+0]: the sign of zero is not modelled. *)
Definition div (a b : number) : number :=
  match a, b with
  | NaN, _ | _, NaN => NaN
  | Infinity _, Infinity _ => NaN
  | Infinity s, Finite y => Infinity (xorb s (Rltb y 0))
  | Finite _, Infinity _ => Finite 0
  | Finite x, Finite y =>
      if Reqb y 0 then (if Reqb x 0 then NaN else Infinity (Rltb x 0))
      else Finite (x / y)
  end.

(** The [%] operator: the remainder takes the sign of the dividend. *)
Definition rem (a b : number) : number :=
  match a, b with
  | NaN, _ | _, NaN => NaN
  | Infinity _, _ => NaN
  | Finite x, Infinity _ => Finite x
  | Finite x, Finite y =>
      if Reqb y 0 then NaN else Finite (x - y * IZR (Rtrunc (x / y)))
  end.

Definition lt (a b : number) : bool :=
  match a, b with
  | NaN, _ | _, NaN => false
  | Infinity s, Infinity t => s && negb t
  | Infinity s, Finite _ => s
  | Finite _, Infinity t => negb t
  | Finite x, Finite y => Rltb x y
  end.

Definition le (a b : number) : bool :=
  match a, b with
  | NaN, _ | _, NaN => false
  | Infinity s, Infinity t => s || negb t
  | Infinity s, Finite _ => s
  | Finite _, Infinity t => negb t
  | Finite x, Finite y => Rleb x y
  end.

Definition isNaN (a : number) : bool :=
  match a with NaN => true | _ => false end.

(** ToBoolean on a number: [NaN] and zero are falsy. *)
Definition truthy (a : number) : bool :=
  match a with
  | NaN => false
  | Infinity _ => true
  | Finite r => negb (Reqb r 0)
  end.

(** [a || b] on numbers. *)
Definition or_else (a b : number) : number := if truthy a then a else b.

Declare Scope js_scope.
Delimit Scope js_scope with js.
Bind Scope js_scope with number.
Infix "+" := add : js_scope.
Infix "-" := sub : js_scope.
Infix "*" := mul : js_scope.
Infix "/" := div : js_scope.
Infix "mod" := rem : js_scope.
Infix "<?" := lt : js_scope.
Infix "<=?" := le : js_scope.
Notation "- a" := (neg a) : js_scope.
Infix "||" := or_else : js_scope.

Coercion Finite : R >-> number.

(** [a > b], which is [b < a] on numbers. *)
Definition gt (a b : number) : bool := lt b a.

Infix ">?" := gt (at level 70, no associativity) : js_scope.

(** *** The [Math] object *)

Definition Math_PI : number := Finite PI.

Definition Math_sin (a : number) : number :=
  match a with Finite r => Finite (sin r) | _ => NaN end.

Definition Math_cos (a : number) : number :=
  match a with Finite r => Finite (cos r) | _ => NaN end.

Definition Math_abs (a : number) : number :=
  match a with
  | NaN => NaN
  | Infinity _ => Infinity false
  | Finite r => Finite (Rabs r)
  end.

(** [Math.round]: the nearest integer, a tie going toward [+Infinity]. *)
Definition Math_round (a : number) : number :=
  match a with
  | Finite r => Finite (IZR (Zfloor (r + / 2)))
  | _ => a
  end.

(** The two-argument arctangent of finite reals, by quadrant. *)
Definition Ratan2 (y x : R) : R :=
  if Rlt_dec 0 x then atan (y / x)
  else if Rlt_dec x 0 then
    (if Rle_dec 0 y then atan (y / x) + PI else atan (y / x) - PI)
  else if Rlt_dec 0 y then PI / 2
  else if Rlt_dec y 0 then - (PI / 2)
  else 0.

Definition Math_atan2 (y x : number) : number :=
  match y, x with
  | NaN, _ | _, NaN => NaN
  | Infinity s, Infinity t =>
      let q := if t then 3 * PI / 4 else PI / 4 in
      Finite (if s then - q else q)
  | Infinity s, Finite _ => Finite (if s then - (PI / 2) else PI / 2)
  | Finite v, Infinity t =>
      if t then Finite (if Rlt_dec v 0 then - PI else PI) else Finite 0
  | Finite v, Finite u => Finite (Ratan2 v u)
  end.

(** *** Strings of decimal digits

    Strings are sequences of UTF-8 bytes. *)

Local Open Scope string_scope.

Definition is_digit (c : ascii) : bool :=
  ((48 <=? N_of_ascii c) && (N_of_ascii c <=? 57))%N.

Definition digit_char (d : N) : ascii := ascii_of_N (48 + d).

Definition digit_of_char (c : ascii) : N := (N_of_ascii c - 48)%N.

(** The digits of [n], most significant first; [fuel] bounds the number of
    digits after the first. *)
Fixpoint digits_aux (fuel : nat) (n : N) (acc : string) : string :=
  let acc' := String (digit_char (n mod 10)) acc in
  match fuel with
  | O => acc'
  | S fuel' => if (n <? 10)%N then acc' else digits_aux fuel' (n / 10) acc'
  end.

Definition decimal_digits (n : N) : string :=
  digits_aux (N.to_nat (N.log2 n)) n "".

(** The number a string of digits denotes, read after the digits [acc]. *)
Fixpoint digits_value (s : string) (acc : N) : N :=
  match s with
  | "" => acc
  | String c s' => digits_value s' (10 * acc + digit_of_char c)
  end.

(** The longest prefix of digits, and what follows it. *)
Fixpoint span_digits (s : string) : string * string :=
  match s with
  | String c s' =>
      if is_digit c then let (d, r) := span_digits s' in (String c d, r)
      else ("", s)
  | "" => ("", "")
  end.

Fixpoint zeros (n : nat) : string :=
  match n with O => "" | S n' => String "0" (zeros n') end.

Fixpoint string_of_bytes (l : list N) : string :=
  match l with
  | [] => ""
  | b :: l' => String (ascii_of_N b) (string_of_bytes l')
  end.

(** [strip p s] is what follows the prefix [p] of [s], if [s] starts with
    [p]. *)
Fixpoint strip (p s : string) : option string :=
  match p, s with
  | "", _ => Some s
  | String a p', String b s' => if Ascii.eqb a b then strip p' s' else None
  | String _ _, "" => None
  end.

Fixpoint strip_any (ps : list string) (s : string) : option string :=
  match ps with
  | [] => None
  | p :: ps' =>
      match strip p s with
      | Some r => Some r
      | None => strip_any ps' s
      end
  end.

(** StrWhiteSpaceChar: TAB, LF, VT, FF, CR, SP, NBSP, the Unicode space
    separators, LS, PS and ZWNBSP, in UTF-8. *)
Definition StrWhiteSpaceChar : list string :=
  List.map string_of_bytes
    ([[9]; [10]; [11]; [12]; [13]; [32]; [194; 160]; [225; 154; 128];
      [226; 128; 128]; [226; 128; 129]; [226; 128; 130]; [226; 128; 131];
      [226; 128; 132]; [226; 128; 133]; [226; 128; 134]; [226; 128; 135];
      [226; 128; 136]; [226; 128; 137]; [226; 128; 138];
      [226; 128; 168]; [226; 128; 169]; [226; 128; 175]; [226; 129; 159];
      [227; 128; 128]; [239; 187; 191]])%N.

Fixpoint trimStart_aux (fuel : nat) (s : string) : string :=
  match fuel with
  | O => s
  | S fuel' =>
      match strip_any StrWhiteSpaceChar s with
      | Some r => trimStart_aux fuel' r
      | None => s
      end
  end.

(** [String.prototype.trimStart]; every stripped character is at least one
    byte, so the length of [s] is fuel enough. *)
Definition trimStart (s : string) : string := trimStart_aux (String.length s) s.

(** *** [parseFloat] *)

(** The prefix of the input that is a StrUnsignedDecimalLiteral. *)
Inductive literal : Type :=
| LitInfinity
| LitDecimal (int_part frac_part : string) (exponent : Z).

(** ExponentPart, when one follows; otherwise the exponent is zero and the
    literal ends before it. *)
Definition scan_exponent (s : string) : Z :=
  match s with
  | String c r =>
      if Ascii.eqb c "e" || Ascii.eqb c "E" then
        let (negative, r') :=
          match r with
          | String "+" t => (false, t)
          | String "-" t => (true, t)
          | _ => (false, r)
          end in
        let (d, _) := span_digits r' in
        match d with
        | "" => 0%Z
        | _ => if negative then (- Z.of_N (digits_value d 0))%Z
               else Z.of_N (digits_value d 0)
        end
      else 0%Z
  | "" => 0%Z
  end.

Definition scan_unsigned (s : string) : option literal :=
  match strip "Infinity" s with
  | Some _ => Some LitInfinity
  | None =>
      let (ip, r) := span_digits s in
      match r with
      | String "." r' =>
          let (fp, r'') := span_digits r' in
          match ip, fp with
          | "", "" => None
          | _, _ => Some (LitDecimal ip fp (scan_exponent r''))
          end
      | _ =>
          match ip with
          | "" => None
          | _ => Some (LitDecimal ip "" (scan_exponent r))
          end
      end
  end.

(** The mathematical value of a decimal literal. *)
Definition literal_value (ip fp : string) (e : Z) : R :=
  IZR (Z.of_N (digits_value (ip ++ fp) 0))
  * powerRZ 10 (e - Z.of_nat (String.length fp)).

Definition signed (negative : bool) (l : option literal) : number :=
  match l with
  | None => NaN
  | Some LitInfinity => Infinity negative
  | Some (LitDecimal ip fp e) =>
      Finite (if negative then - literal_value ip fp e else literal_value ip fp e)
  end.

Definition parseFloat (s : string) : number :=
  match trimStart s with
  | String "+" r => signed false (scan_unsigned r)
  | String "-" r => signed true (scan_unsigned r)
  | t => signed false (scan_unsigned t)
  end.

(** *** [Number.prototype.toFixed] *)

Section ToFixed.

(** [Number::toString] on a finite value of magnitude at least [10^21],
    where [toFixed] gives up fixed-point notation.  The shortest digits that
    read back as the same double have no counterpart on the reals, so the
    printer is a parameter. *)
Variable Number_toString : R -> string.

(** The digits of [n / 10^f] with exactly [f] digits after the point. *)
Definition fixed_point (n : N) (f : nat) : string :=
  let m := decimal_digits n in
  match f with
  | O => m
  | _ =>
      let m := zeros (f + 1 - String.length m) ++ m in
      let k := String.length m in
      substring 0 (k - f) m ++ "." ++ substring (k - f) f m
  end.

(** [x.toFixed(f)] for [0 <= f <= 100]: the integer [n] closest to
    [|x| * 10^f], the larger one on a tie, printed in fixed-point notation. *)
Definition toFixed (x : number) (f : nat) : string :=
  match x with
  | NaN => "NaN"
  | Infinity s => if s then "-Infinity" else "Infinity"
  | Finite r =>
      let s := if Rlt_dec r 0 then "-" else "" in
      let x := Rabs r in
      s ++ (if Rle_dec (10 ^ 21) x then Number_toString x
            else fixed_point (Z.to_N (Zfloor (x * 10 ^ f + / 2))) f)
  end.

End ToFixed.

End JS.

Import JS.

(** ** [FerrisWheel.tsx] *)

Module FerrisWheel.

Local Open Scope R_scope.
Local Open Scope string_scope.
Local Open Scope js_scope.

Section Component.

Variable Number_toString : R -> string.

(** The [angle] state starts at [Math.PI / 6]. *)
Definition initialAngle : number := Math_PI / 6.

Definition RADIUS : number := 160.

Record Point : Type := { x : number; y : number }.

Definition CENTER : Point := {| x := 250; y := 250 |}.

Record DOMRect : Type := { left : number; top : number }.

Definition rawCos (angle : number) : number := Math_cos angle.
Definition rawSin (angle : number) : number := Math_sin angle.

Definition pointX (angle : number) : number := x CENTER + RADIUS * rawCos angle.
Definition pointY (angle : number) : number := y CENTER - RADIUS * rawSin angle.

(** [updateAngle]: the new [angle] state; [svgRef] is [None] while the
    element is not mounted, and the state is then left as it is. *)
Definition updateAngle (svgRef : option DOMRect) (clientX clientY : number)
    (angle : number) : number :=
  match svgRef with
  | None => angle
  | Some rect =>
      let x := clientX - left rect - x CENTER in
      let y := top rect + y CENTER - clientY in
      let newAngle := Math_atan2 y x in
      if newAngle <? 0 then newAngle + 2 * Math_PI else newAngle
  end.

Definition displayDegrees (angle : number) : number :=
  Math_round ((angle * 180 / Math_PI) * 10) / 10.

Definition radText (angle : number) : string :=
  (toFixed Number_toString (angle / Math_PI) 2 ++ "π")%string.

(** The value [handleDegreeChange] passes to [setAngle]. *)
Definition angleFromDegrees (val : number) : number := (val * Math_PI) / 180.

(** [handleDegreeChange] on the text of the input: the new [angle] state. *)
Definition handleDegreeChange (value : string) (angle : number) : number :=
  let val := parseFloat value in
  if negb (isNaN val) then angleFromDegrees val else angle.

Definition normalized (angle : number) : number := angle mod (2 * Math_PI).

Definition positiveAngle (angle : number) : number :=
  if normalized angle <? 0 then normalized angle + 2 * Math_PI
  else normalized angle.

Definition getQuadrantColor (angle : number) : string :=
  if positiveAngle angle <? Math_PI / 2 then "text-emerald-600"
  else if positiveAngle angle <? Math_PI then "text-blue-600"
  else if positiveAngle angle <? 3 * Math_PI / 2 then "text-orange-600"
  else "text-rose-600".

(** The text of the tan(θ) row. *)
Definition tanText (angle : number) : string :=
  if Math_abs (rawCos angle) <? 0.001 then "∞"
  else toFixed Number_toString (rawSin angle / rawCos angle) 4.

(** The two state variables of the component. *)
Record State : Type := { angle : number; isDragging : bool }.

Definition initialState : State :=
  {| angle := initialAngle; isDragging := false |}.

Record Touch : Type := { touch_clientX : number; touch_clientY : number }.

Definition handleMouseDown (s : State) : State :=
  {| angle := angle s; isDragging := true |}.

Definition handleTouchStart (s : State) : State :=
  {| angle := angle s; isDragging := true |}.

Definition handleMouseMove (svgRef : option DOMRect) (clientX clientY : number)
    (s : State) : State :=
  if isDragging s then
    {| angle := updateAngle svgRef clientX clientY (angle s);
       isDragging := isDragging s |}
  else s.

(** [handleTouchMove] reads [e.touches[0]]; on an empty touch list this is
    [undefined] and reading its [clientX] throws, which is [None] here. *)
Definition handleTouchMove (svgRef : option DOMRect) (touches : list Touch)
    (s : State) : option State :=
  if isDragging s then
    match touches with
    | [] => None
    | touch :: _ =>
        Some {| angle := updateAngle svgRef (touch_clientX touch)
                                     (touch_clientY touch) (angle s);
                isDragging := isDragging s |}
    end
  else Some s.

Definition handleEnd (s : State) : State :=
  {| angle := angle s; isDragging := false |}.

(** The listener the effect registers on [window] for [mouseup] and
    [touchend]. *)
Definition handleGlobalEnd (s : State) : State :=
  {| angle := angle s; isDragging := false |}.

(** The events the component listens to: those of the [svg] element, the
    two [window] listeners and the change of the degree input.  The pointer
    events carry the element the ref holds when they arrive. *)
Inductive Event : Type :=
| onMouseDown
| onMouseMove (svgRef : option DOMRect) (clientX clientY : number)
| onMouseUp
| onTouchStart
| onTouchMove (svgRef : option DOMRect) (touches : list Touch)
| onTouchEnd
| window_mouseup
| window_touchend
| onChange (value : string).

Definition dispatch (e : Event) (s : State) : option State :=
  match e with
  | onMouseDown => Some (handleMouseDown s)
  | onMouseMove svgRef clientX clientY =>
      Some (handleMouseMove svgRef clientX clientY s)
  | onMouseUp => Some (handleEnd s)
  | onTouchStart => Some (handleTouchStart s)
  | onTouchMove svgRef touches => handleTouchMove svgRef touches s
  | onTouchEnd => Some (handleEnd s)
  | window_mouseup => Some (handleGlobalEnd s)
  | window_touchend => Some (handleGlobalEnd s)
  | onChange value =>
      Some {| angle := handleDegreeChange value (angle s);
              isDragging := isDragging s |}
  end.

(** The events one after the other, stopping at the first that throws. *)
Fixpoint run (events : list Event) (s : State) : option State :=
  match events with
  | [] => Some s
  | e :: events' =>
      match dispatch e s with
      | Some s' => run events' s'
      | None => None
      end
  end.

Definition WHEEL_SPOKES : number := 12.

Record Line : Type := { x1 : number; y1 : number; x2 : number; y2 : number }.

Definition spokeAngle (i : number) : number := (i * 2 * Math_PI) / WHEEL_SPOKES.

(** The line drawn for index [i] of the spokes. *)
Definition spoke (i : number) : Line :=
  {| x1 := x CENTER; y1 := y CENTER;
     x2 := x CENTER + RADIUS * Math_cos (spokeAngle i);
     y2 := y CENTER - RADIUS * Math_sin (spokeAngle i) |}.

(** [Array.from({ length: WHEEL_SPOKES }).map((_, i) => ...)]: the indices
    0 to 11. *)
Definition spokes : list Line :=
  List.map (fun i : nat => spoke (Finite (INR i))) (seq 0 12).

(** The angle arc [M ... A 40 40 0 flag 0 endX endY]: its start point, its
    large-arc flag and its end point. *)
Definition arcStart : Point := {| x := x CENTER + 40; y := y CENTER |}.

Definition arcLargeFlag (angle : number) : number :=
  if angle mod (2 * Math_PI) >? Math_PI then 1 else 0.

Definition arcEnd (angle : number) : Point :=
  {| x := x CENTER + 40 * Math_cos (- angle);
     y := y CENTER + 40 * Math_sin (- angle) |}.

(** The texts of the coordinate card and of the sine and cosine rows. *)
Definition cosCoordText (angle : number) : string :=
  toFixed Number_toString (rawCos angle) 3.

Definition sinCoordText (angle : number) : string :=
  toFixed Number_toString (rawSin angle) 3.

Definition sinText (angle : number) : string :=
  toFixed Number_toString (rawSin angle) 4.

Definition cosText (angle : number) : string :=
  toFixed Number_toString (rawCos angle) 4.

End Component.

End FerrisWheel.

(** ** [FunctionPlotter.tsx] *)

Module FunctionPlotter.

Local Open Scope R_scope.
Local Open Scope string_scope.
Local Open Scope js_scope.

Record PlotParams : Type :=
  { A : number; omega : number; phi : number; k : number }.

Record DataPoint : Type :=
  { xVal : number; y : number; standard : number }.

Definition defaultParams : PlotParams :=
  {| A := 1; omega := 1; phi := 0; k := 0 |}.

Definition handleReset (params : PlotParams) : PlotParams := defaultParams.

(** The [onChange] handlers of the four number inputs: the new [params]. *)
Definition onChange_A (value : string) (params : PlotParams) : PlotParams :=
  {| A := parseFloat value || 0; omega := omega params;
     phi := phi params; k := k params |}.

Definition onChange_omega (value : string) (params : PlotParams) : PlotParams :=
  {| A := A params; omega := parseFloat value || 0;
     phi := phi params; k := k params |}.

Definition onChange_phi (value : string) (params : PlotParams) : PlotParams :=
  {| A := A params; omega := omega params;
     phi := parseFloat value || 0; k := k params |}.

Definition onChange_k (value : string) (params : PlotParams) : PlotParams :=
  {| A := A params; omega := omega params;
     phi := phi params; k := parseFloat value || 0 |}.

(** The [onChange] handlers of the four range sliders. *)
Definition onRange_A (value : string) (params : PlotParams) : PlotParams :=
  {| A := parseFloat value; omega := omega params;
     phi := phi params; k := k params |}.

Definition onRange_omega (value : string) (params : PlotParams) : PlotParams :=
  {| A := A params; omega := parseFloat value;
     phi := phi params; k := k params |}.

Definition onRange_phi (value : string) (params : PlotParams) : PlotParams :=
  {| A := A params; omega := omega params;
     phi := parseFloat value; k := k params |}.

Definition onRange_k (value : string) (params : PlotParams) : PlotParams :=
  {| A := A params; omega := omega params;
     phi := phi params; k := parseFloat value |}.

Section Component.

Variable Number_toString : R -> string.

(** The body of the sampling loop: the point pushed for [x]. *)
Definition sample (params : PlotParams) (x : number) : DataPoint :=
  let y := A params * Math_sin (omega params * x + phi params * Math_PI)
           + k params in
  let standard := Math_sin x in
  {| xVal := x;
     y := parseFloat (toFixed Number_toString y 3);
     standard := parseFloat (toFixed Number_toString standard 3) |}.

(** [for (let x = start; x <= end; x += step)], one iteration per unit of
    fuel; [None] when the fuel runs out before the guard fails. *)
Fixpoint loop (fuel : nat) (params : PlotParams) (x end_ step : number)
    : option (list DataPoint) :=
  match fuel with
  | O => None
  | S fuel' =>
      if x <=? end_ then
        option_map (cons (sample params x))
                   (loop fuel' params (x + step) end_ step)
      else Some []
  end.

Definition start : number := - 2 * Math_PI.
Definition end_ : number := 2 * Math_PI.
Definition step : number := (end_ - start) / 200.

Definition data (fuel : nat) (params : PlotParams) : option (list DataPoint) :=
  loop fuel params start end_ step.

Definition formatXAxis (tick : number) : string :=
  let piVal := tick / Math_PI in
  if Math_abs piVal <? 0.01 then "0"
  else if Math_abs (piVal - 1) <? 0.01 then "π"
  else if Math_abs (piVal + 1) <? 0.01 then "-π"
  else if Math_abs (piVal - 2) <? 0.01 then "2π"
  else if Math_abs (piVal + 2) <? 0.01 then "-2π"
  else if Math_abs (piVal - 0.5) <? 0.01 then "π/2"
  else if Math_abs (piVal + 0.5) <? 0.01 then "-π/2"
  else (toFixed Number_toString piVal 1 ++ "π")%string.

(** The [ticks] of the x axis. *)
Definition ticks : list number :=
  [- 2 * Math_PI; - 1.5 * Math_PI; - Math_PI; - 0.5 * Math_PI; Finite 0;
   0.5 * Math_PI; Math_PI; 1.5 * Math_PI; 2 * Math_PI].

End Component.

End FunctionPlotter.

(** ** The sampling grid in binary64 arithmetic *)

Module Binary64.

Local Open Scope float_scope.

Definition Math_PI : float := 0x1.921fb54442d18p+1.

Fixpoint loop (fuel : nat) (x end_ step : float) : option (list float) :=
  match fuel with
  | O => None
  | S fuel' =>
      if x <=? end_ then option_map (cons x) (loop fuel' (x + step) end_ step)
      else Some []
  end.

Definition start : float := - 2 * Math_PI.
Definition end_ : float := 2 * Math_PI.
Definition step : float := (end_ - start) / 200.

Definition grid (fuel : nat) : option (list float) := loop fuel start end_ step.

End Binary64.

(** ** What the specification calls rounding *)

(** [x] rounded to [f] decimal places, half away from zero: the reading of
    "rounded to 3 decimal places" that [toFixed] implements. *)
Definition round_to (f : nat) (x : R) : R :=
  ((if Rlt_dec x 0 then - 1 else 1)
   * IZR (Zfloor (Rabs x * 10 ^ f + / 2)) / 10 ^ f)%R.

Fixpoint digits_only (s : string) : bool :=
  match s with
  | EmptyString => true
  | String c s' => is_digit c && digits_only s'
  end.

(** The four quadrants of the specification, and the colour class
    [getQuadrantColor] returns for each. *)
Inductive Quadrant : Type := Q1 | Q2 | Q3 | Q4.

Definition quadrant_color (q : Quadrant) : string :=
  match q with
  | Q1 => "text-emerald-600"
  | Q2 => "text-blue-600"
  | Q3 => "text-orange-600"
  | Q4 => "text-rose-600"
  end.

(** The quarter of [[0, 2π)] an angle lies in: [Q1] is [[0, π/2)], [Q2] is
    [[π/2, π)], [Q3] is [[π, 3π/2)] and [Q4] is [[3π/2, 2π)]. *)
Definition in_quadrant (q : Quadrant) (a : R) : Prop :=
  match q with
  | Q1 => 0 <= a < PI / 2
  | Q2 => PI / 2 <= a < PI
  | Q3 => PI <= a < 3 * PI / 2
  | Q4 => 3 * PI / 2 <= a < 2 * PI
  end%R.

(** The sampling grid: [n] values from [x] in steps of [s], each obtained
    from the one before by one addition, as the loop computes them. *)
Fixpoint grid_from (x s : R) (n : nat) : list R :=
  match n with
  | O => []
  | S n' => x :: grid_from (x + s)%R s n'
  end.

(** A stand-in for [Number::toString] in the instances below, none of which
    reaches [10^21]. *)
Definition no_exponent (x : R) : string := EmptyString.

(** What the binary64 run of the loop counter is checked for: 201 values,
    the first one [start], the last one at most [end_] and less than
    [2^-40] below it. *)
Definition grid_ok (xs : list float) : bool :=
  (List.length xs =? 201)%nat
  && PrimFloat.eqb (nth 0 xs 0%float) Binary64.start
  && PrimFloat.leb (nth 200 xs 0%float) Binary64.end_
  && PrimFloat.ltb (Binary64.end_ - nth 200 xs 0%float)%float 0x1p-40%float.


(** The pointer moves among the events. *)
Definition is_move (e : FerrisWheel.Event) : bool :=
  match e with
  | FerrisWheel.onMouseMove _ _ _ | FerrisWheel.onTouchMove _ _ => true
  | _ => false
  end.

(** The events that release the pointer. *)
Definition is_end (e : FerrisWheel.Event) : bool :=
  match e with
  | FerrisWheel.onMouseUp | FerrisWheel.onTouchEnd
  | FerrisWheel.window_mouseup | FerrisWheel.window_touchend => true
  | _ => false
  end.

Definition is_finite (a : number) : Prop := exists r, a = Finite r.

Definition finite_ref (svgRef : option FerrisWheel.DOMRect) : Prop :=
  match svgRef with
  | None => True
  | Some rect => is_finite (FerrisWheel.left rect) /\ is_finite (FerrisWheel.top rect)
  end.

(** A pointer event as a browser delivers it: finite coordinates, and at
    least one touch in a touch move; the degree input is not among them. *)
Definition pointer_event (e : FerrisWheel.Event) : Prop :=
  match e with
  | FerrisWheel.onMouseMove svgRef clientX clientY =>
      finite_ref svgRef /\ is_finite clientX /\ is_finite clientY
  | FerrisWheel.onTouchMove svgRef touches =>
      finite_ref svgRef
      /\ exists touch rest,
           touches = touch :: rest
           /\ is_finite (FerrisWheel.touch_clientX touch)
           /\ is_finite (FerrisWheel.touch_clientY touch)
  | FerrisWheel.onChange _ => False
  | _ => True
  end.

(** * Properties *)

(** ** Comparisons on the reals *)

Lemma Rltb_true (a b : R) : (a < b)%R -> Rltb a b = true.
Proof. intros H. unfold Rltb. destruct (Rlt_dec a b); [reflexivity | contradiction]. Qed.

Lemma Rltb_false (a b : R) : (b <= a)%R -> Rltb a b = false.
Proof. intros H. unfold Rltb. destruct (Rlt_dec a b); [lra | reflexivity]. Qed.

Lemma Rltb_iff (a b : R) : Rltb a b = true <-> (a < b)%R.
Proof.
  unfold Rltb. destruct (Rlt_dec a b); split; intros H; try assumption;
    try reflexivity; try discriminate; contradiction.
Qed.

Lemma Rleb_true (a b : R) : (a <= b)%R -> Rleb a b = true.
Proof. intros H. unfold Rleb. destruct (Rle_dec a b); [reflexivity | contradiction]. Qed.

Lemma Rleb_false (a b : R) : (b < a)%R -> Rleb a b = false.
Proof. intros H. unfold Rleb. destruct (Rle_dec a b); [lra | reflexivity]. Qed.

Lemma Reqb_false (a b : R) : a <> b -> Reqb a b = false.
Proof. intros H. unfold Reqb. destruct (Req_dec_T a b); [contradiction | reflexivity]. Qed.

Lemma Reqb_true (a b : R) : a = b -> Reqb a b = true.
Proof. intros H. unfold Reqb. destruct (Req_dec_T a b); [reflexivity | contradiction]. Qed.

(** ** Decimal digits *)

Section Digits.

Local Open Scope string_scope.
Local Open Scope N_scope.

Lemma digit_char_is_digit (d : N) : d < 10 -> is_digit (digit_char d) = true.
Proof.
  intros H. unfold is_digit, digit_char.
  rewrite N_ascii_embedding by lia.
  apply andb_true_intro; split; apply N.leb_le; lia.
Qed.

Lemma digit_of_digit_char (d : N) : d < 10 -> digit_of_char (digit_char d) = d.
Proof.
  intros H. unfold digit_of_char, digit_char.
  rewrite N_ascii_embedding by lia. lia.
Qed.

Lemma digits_only_app (a b : string) :
  digits_only (a ++ b) = digits_only a && digits_only b.
Proof.
  induction a as [|c a IH]; simpl; [reflexivity|].
  rewrite IH. apply andb_assoc.
Qed.

Lemma append_length (a b : string) :
  String.length (a ++ b) = (String.length a + String.length b)%nat.
Proof. induction a as [|c a IH]; simpl; [reflexivity | now rewrite IH]. Qed.

Lemma append_assoc (a b c : string) : (a ++ b) ++ c = a ++ (b ++ c).
Proof. induction a as [|x a IH]; simpl; [reflexivity | now rewrite IH]. Qed.

Lemma append_empty_r (a : string) : a ++ "" = a.
Proof. induction a as [|x a IH]; simpl; [reflexivity | now rewrite IH]. Qed.

(** Reading digits after an accumulator shifts the accumulator. *)
Lemma digits_value_acc (s : string) (acc : N) :
  digits_value s acc = acc * 10 ^ N.of_nat (String.length s) + digits_value s 0.
Proof.
  revert acc. induction s as [|c s IH]; intros acc.
  - simpl. lia.
  - cbn [digits_value String.length].
    rewrite IH. rewrite (IH (10 * 0 + digit_of_char c)).
    rewrite Nat2N.inj_succ, N.pow_succ_r'. lia.
Qed.

Lemma digits_value_app (a b : string) :
  digits_value (a ++ b) 0
  = digits_value a 0 * 10 ^ N.of_nat (String.length b) + digits_value b 0.
Proof.
  revert b. induction a as [|c a IH]; intros b.
  - simpl. lia.
  - cbn [append digits_value].
    rewrite digits_value_acc. rewrite (digits_value_acc a).
    rewrite IH, append_length, Nat2N.inj_add, N.pow_add_r. lia.
Qed.

Lemma digits_aux_spec (fuel : nat) :
  forall n acc, n < 2 ^ N.of_nat (S fuel) ->
  exists d, digits_aux fuel n acc = d ++ acc
            /\ digits_only d = true /\ d <> "" /\ digits_value d 0 = n.
Proof.
  assert (one : forall n acc, n < 10 ->
            exists d, String (digit_char (n mod 10)) acc = d ++ acc
                      /\ digits_only d = true /\ d <> "" /\ digits_value d 0 = n).
  { intros n acc Hn. exists (String (digit_char (n mod 10)) "").
    rewrite N.mod_small by assumption.
    repeat split.
    - simpl. now rewrite digit_char_is_digit.
    - discriminate.
    - simpl. rewrite digit_of_digit_char by assumption. lia. }
  induction fuel as [|fuel IH]; intros n acc Hn.
  - simpl. apply one. simpl in Hn. lia.
  - cbn [digits_aux]. destruct (N.ltb_spec n 10) as [Hlt|Hge].
    + now apply one.
    + destruct (IH (n / 10) (String (digit_char (n mod 10)) acc)) as (d & E & Hd & Hne & Hv).
      { rewrite Nat2N.inj_succ, N.pow_succ_r' in Hn.
        apply N.Div0.div_lt_upper_bound.
        lia. }
      exists (d ++ String (digit_char (n mod 10)) "").
      repeat split.
      * rewrite E, append_assoc. reflexivity.
      * rewrite digits_only_app, Hd. simpl.
        rewrite digit_char_is_digit; [reflexivity|].
        apply N.mod_lt. lia.
      * destruct d; [contradiction | discriminate].
      * rewrite digits_value_app, Hv. simpl.
        rewrite digit_of_digit_char by (apply N.mod_lt; lia).
        pose proof (N.div_mod n 10). lia.
Qed.

Lemma decimal_digits_spec (n : N) :
  digits_only (decimal_digits n) = true
  /\ decimal_digits n <> ""
  /\ digits_value (decimal_digits n) 0 = n.
Proof.
  unfold decimal_digits.
  destruct (digits_aux_spec (N.to_nat (N.log2 n)) n "") as (d & E & Hd & Hne & Hv).
  - rewrite Nat2N.inj_succ, N2Nat.id.
    destruct n as [|p]; [reflexivity|].
    apply N.log2_spec. lia.
  - rewrite E, append_empty_r. auto.
Qed.

End Digits.

(** ** Fixed-point notation and reading it back *)

Section FixedPoint.

Local Open Scope string_scope.

Lemma zeros_spec (n : nat) :
  digits_only (zeros n) = true /\ String.length (zeros n) = n
  /\ digits_value (zeros n) 0 = 0%N.
Proof.
  induction n as [|n (Hd & Hl & Hv)]; simpl; [auto|].
  rewrite Hd, Hl. repeat split; try reflexivity.
  rewrite digits_value_acc, Hv. reflexivity.
Qed.

Lemma substring_all (s : string) : substring 0 (String.length s) s = s.
Proof. induction s as [|c s IH]; simpl; [reflexivity | now rewrite IH]. Qed.

Lemma substring_split (s : string) :
  forall n, (n <= String.length s)%nat ->
  substring 0 n s ++ substring n (String.length s - n) s = s.
Proof.
  induction s as [|c s IH]; intros n Hn.
  - destruct n; [reflexivity | simpl in Hn; lia].
  - destruct n as [|n].
    + cbn [substring String.length Nat.sub append]. now rewrite substring_all.
    + cbn [substring String.length Nat.sub append].
      rewrite IH by (simpl in Hn; lia). reflexivity.
Qed.

Lemma substring_prefix_length (s : string) :
  forall n, (n <= String.length s)%nat -> String.length (substring 0 n s) = n.
Proof.
  induction s as [|c s IH]; intros n Hn.
  - destruct n; [reflexivity | simpl in Hn; lia].
  - destruct n as [|n]; [reflexivity|].
    cbn [substring String.length]. rewrite IH by (simpl in Hn; lia). reflexivity.
Qed.

(** The shape of [toFixed]'s fixed-point output: digits, a point, and exactly
    [f] digits, which together spell [n]. *)
Lemma fixed_point_spec (n : N) (f : nat) :
  (0 < f)%nat ->
  exists a b, fixed_point n f = a ++ "." ++ b
              /\ digits_only a = true /\ a <> ""
              /\ digits_only b = true /\ String.length b = f
              /\ digits_value (a ++ b) 0 = n.
Proof.
  intros Hf. unfold fixed_point.
  destruct f as [|f']; [lia|]. set (f := S f') in *.
  destruct (decimal_digits_spec n) as (Hd & Hne & Hv).
  destruct (zeros_spec (f + 1 - String.length (decimal_digits n))) as (Zd & Zl & Zv).
  set (m := zeros (f + 1 - String.length (decimal_digits n)) ++ decimal_digits n).
  assert (Hk : (f + 1 <= String.length m)%nat).
  { unfold m. rewrite append_length, Zl. lia. }
  assert (Hm : digits_only m = true).
  { unfold m. rewrite digits_only_app, Zd, Hd. reflexivity. }
  assert (Hmv : digits_value m 0 = n).
  { unfold m. rewrite digits_value_app, Zv, Hv. lia. }
  pose proof (substring_split m (String.length m - f) ltac:(lia)) as Hs.
  replace (String.length m - (String.length m - f))%nat with f in Hs by lia.
  exists (substring 0 (String.length m - f) m), (substring (String.length m - f) f m).
  rewrite <- Hs in Hm. rewrite digits_only_app in Hm.
  apply andb_prop in Hm. destruct Hm as (Ha & Hb).
  repeat split; try assumption.
  - intros E.
    pose proof (substring_prefix_length m (String.length m - f) ltac:(lia)) as L.
    rewrite E in L. simpl in L. lia.
  - apply (f_equal String.length) in Hs.
    rewrite append_length, substring_prefix_length in Hs by lia. lia.
  - rewrite Hs. exact Hmv.
Qed.

Lemma span_digits_app (a r : string) :
  digits_only a = true ->
  (forall c r', r = String c r' -> is_digit c = false) ->
  span_digits (a ++ r) = (a, r).
Proof.
  intros Ha Hr. induction a as [|c a IH].
  - simpl. destruct r as [|c r']; [reflexivity|].
    simpl. now rewrite (Hr c r' eq_refl).
  - simpl in Ha. apply andb_prop in Ha. destruct Ha as (Hc & Ha).
    simpl. rewrite Hc, (IH Ha). reflexivity.
Qed.

(** A digit is no white space, no sign and not the [I] of [Infinity]. *)
Lemma digit_first (c : ascii) (s : string) :
  is_digit c = true ->
  trimStart (String c s) = String c s
  /\ strip "Infinity" (String c s) = None
  /\ c <> "+"%char /\ c <> "-"%char.
Proof.
  intros H.
  destruct c as [[] [] [] [] [] [] [] []]; try discriminate H;
    (split; [reflexivity | split; [reflexivity | split; discriminate]]).
Qed.

Lemma parseFloat_digit_first (c : ascii) (s : string) :
  is_digit c = true ->
  parseFloat (String c s) = signed false (scan_unsigned (String c s)).
Proof.
  intros H. destruct (digit_first c s H) as (T & _ & _ & _).
  unfold parseFloat. rewrite T.
  destruct c as [[] [] [] [] [] [] [] []]; try discriminate H; reflexivity.
Qed.

Lemma parseFloat_minus_digit (c : ascii) (s : string) :
  parseFloat (String "-" (String c s)) = signed true (scan_unsigned (String c s)).
Proof. reflexivity. Qed.

Lemma scan_unsigned_fixed (a b : string) :
  digits_only a = true -> a <> "" -> digits_only b = true ->
  scan_unsigned (a ++ "." ++ b) = Some (LitDecimal a b 0).
Proof.
  intros Ha Hne Hb. unfold scan_unsigned.
  destruct a as [|c a]; [contradiction|].
  pose proof Ha as Hc. simpl in Hc. apply andb_prop in Hc. destruct Hc as (Hc & _).
  change ("." ++ b) with (String "." b).
  destruct (digit_first c (a ++ String "." b) Hc) as (_ & I & _ & _).
  change (String c a ++ String "." b) with (String c (a ++ String "." b)).
  rewrite I. change (String c (a ++ String "." b)) with (String c a ++ String "." b).
  rewrite span_digits_app; [| assumption | intros c' r' E; now inversion E].
  rewrite <- (append_empty_r b) at 1.
  rewrite span_digits_app; [reflexivity | assumption | discriminate].
Qed.

Lemma scan_unsigned_digits (a : string) :
  digits_only a = true -> a <> "" ->
  scan_unsigned a = Some (LitDecimal a "" 0).
Proof.
  intros Ha Hne. unfold scan_unsigned.
  destruct a as [|c a]; [contradiction|].
  pose proof Ha as Hc. simpl in Hc. apply andb_prop in Hc. destruct Hc as (Hc & _).
  destruct (digit_first c a Hc) as (_ & I & _ & _). rewrite I.
  rewrite <- (append_empty_r (String c a)) at 1.
  rewrite span_digits_app; [reflexivity | assumption | discriminate].
Qed.

Local Open Scope R_scope.

Lemma powerRZ_10_neg (f : nat) : powerRZ 10 (0 - Z.of_nat f) = / 10 ^ f.
Proof.
  replace (0 - Z.of_nat f)%Z with (- Z.of_nat f)%Z by lia.
  rewrite powerRZ_neg', <- pow_powerRZ. reflexivity.
Qed.

(** What [scan_unsigned] reads from fixed-point notation, with its value. *)
Lemma scan_fixed_point (n : N) (f : nat) :
  exists c s ip fp,
    fixed_point n f = String c s /\ is_digit c = true
    /\ scan_unsigned (String c s) = Some (LitDecimal ip fp 0)
    /\ literal_value ip fp 0 = IZR (Z.of_N n) / 10 ^ f.
Proof.
  destruct f as [|f'].
  - destruct (decimal_digits_spec n) as (Hd & Hne & Hv).
    cbn [fixed_point]. destruct (decimal_digits n) as [|c s] eqn:E; [contradiction|].
    exists c, s, (String c s), "". repeat split.
    + simpl in Hd. now apply andb_prop in Hd.
    + now apply scan_unsigned_digits.
    + unfold literal_value. rewrite append_empty_r, Hv.
      change (String.length "") with 0%nat. rewrite powerRZ_10_neg. reflexivity.
  - destruct (fixed_point_spec n (S f') ltac:(lia)) as (a & b & E & Ha & Hne & Hb & Hl & Hv).
    rewrite E. destruct a as [|c a]; [contradiction|].
    exists c, (a ++ "." ++ b)%string, (String c a), b. repeat split.
    + simpl in Ha. now apply andb_prop in Ha.
    + now apply (scan_unsigned_fixed (String c a) b).
    + unfold literal_value. rewrite Hv, Hl, powerRZ_10_neg. reflexivity.
Qed.

End FixedPoint.

(** ** Trimming *)

Section Trimming.

Local Open Scope string_scope.

Lemma strip_length (p : string) :
  forall s r, strip p s = Some r ->
  String.length s = (String.length p + String.length r)%nat.
Proof.
  induction p as [|a p IH]; intros s r E.
  - simpl in E. injection E as ->. reflexivity.
  - destruct s as [|b s]; [discriminate E|].
    simpl in E. destruct (Ascii.eqb a b); [|discriminate E].
    simpl. now rewrite (IH s r E).
Qed.

Lemma strip_any_shorter (ps : list string) (s r : string) :
  Forall (fun p => p <> "") ps ->
  strip_any ps s = Some r -> (String.length r < String.length s)%nat.
Proof.
  intros Hne. induction Hne as [|p ps Hp _ IH]; intros E; [discriminate E|].
  simpl in E. destruct (strip p s) as [r'|] eqn:Ep.
  - injection E as ->. apply strip_length in Ep.
    destruct p; [contradiction|]. simpl in Ep. lia.
  - now apply IH.
Qed.

Lemma StrWhiteSpaceChar_nonempty : Forall (fun p => p <> "") StrWhiteSpaceChar.
Proof. repeat constructor; discriminate. Qed.

(** The fuel of [trimStart] is enough: no white space is left in front. *)
Lemma trimStart_done (s : string) :
  strip_any StrWhiteSpaceChar (trimStart s) = None.
Proof.
  unfold trimStart.
  assert (G : forall fuel t, (String.length t <= fuel)%nat ->
              strip_any StrWhiteSpaceChar (trimStart_aux fuel t) = None).
  { induction fuel as [|fuel IH]; intros t Ht.
    - destruct t; [reflexivity | simpl in Ht; lia].
    - cbn [trimStart_aux].
      destruct (strip_any StrWhiteSpaceChar t) as [r|] eqn:E; [|exact E].
      apply IH.
      pose proof (strip_any_shorter _ _ _ StrWhiteSpaceChar_nonempty E). lia. }
  now apply G.
Qed.

End Trimming.

(** ** The parser and the printer on sample texts *)

Section Samples.

Local Open Scope string_scope.

Example parseFloat_no_number :
  parseFloat "" = NaN /\ parseFloat "abc" = NaN /\ parseFloat "." = NaN
  /\ parseFloat "-" = NaN /\ parseFloat "e5" = NaN /\ parseFloat "- 1" = NaN.
Proof. repeat split. Qed.

Example parseFloat_infinity :
  parseFloat "Infinity" = Infinity false
  /\ parseFloat "  -Infinityx" = Infinity true.
Proof. repeat split. Qed.

Example scan_longest_prefix :
  scan_unsigned "1.5e3px" = Some (LitDecimal "1" "5" 3)
  /\ scan_unsigned "5." = Some (LitDecimal "5" "" 0)
  /\ scan_unsigned ".5e-3" = Some (LitDecimal "" "5" (-3))
  /\ scan_unsigned "1e+" = Some (LitDecimal "1" "" 0)
  /\ scan_unsigned "0x10" = Some (LitDecimal "0" "" 0).
Proof. repeat split. Qed.

Example trimStart_white_space :
  trimStart (string_of_bytes [32; 9; 226; 128; 168; 194; 160; 49; 32]%N) = "1 ".
Proof. reflexivity. Qed.

Example parseFloat_value : parseFloat " -12.50e1px" = Finite (- 125).
Proof.
  change (parseFloat " -12.50e1px") with (Finite (- literal_value "12" "50" 1)).
  f_equal. unfold literal_value. simpl. lra.
Qed.

Example fixed_point_digits :
  fixed_point 30 1 = "3.0" /\ fixed_point 5 3 = "0.005"
  /\ fixed_point 0 4 = "0.0000" /\ fixed_point 12345 3 = "12.345"
  /\ fixed_point 12 0 = "12".
Proof. repeat split. Qed.

End Samples.

(** ** [parseFloat(x.toFixed(f))] rounds [x] to [f] decimal places *)

Section RoundTrip.

Local Open Scope R_scope.

Variable Number_toString : R -> string.

Lemma Zfloor_half_nonneg (x : R) : 0 <= x -> (0 <= Zfloor (x + / 2))%Z.
Proof. intros H. apply Zfloor_lub. simpl. lra. Qed.

Lemma parseFloat_toFixed (r : R) (f : nat) :
  Rabs r < 10 ^ 21 ->
  parseFloat (toFixed Number_toString (Finite r) f) = Finite (round_to f r).
Proof.
  intros Hr. unfold toFixed, round_to.
  destruct (Rle_dec (10 ^ 21) (Rabs r)) as [Hbig|_]; [lra|].
  set (z := Zfloor (Rabs r * 10 ^ f + / 2)).
  assert (Hz : (0 <= z)%Z).
  { apply Zfloor_half_nonneg. apply Rmult_le_pos; [apply Rabs_pos|].
    apply pow_le. lra. }
  destruct (scan_fixed_point (Z.to_N z) f) as (c & s & ip & fp & E & Hc & Hs & Hv).
  rewrite Z2N.id in Hv by assumption.
  rewrite E. destruct (Rlt_dec r 0) as [Hneg|Hpos].
  - change ("-" ++ String c s)%string with (String "-" (String c s)).
    rewrite parseFloat_minus_digit, Hs. cbn [signed]. rewrite Hv.
    f_equal. unfold Rdiv. ring.
  - change ("" ++ String c s)%string with (String c s).
    rewrite parseFloat_digit_first, Hs by assumption. cbn [signed]. rewrite Hv.
    f_equal. unfold Rdiv. ring.
Qed.

(** [round_to f] moves its argument by at most half a unit of the last
    place kept. *)
Lemma round_to_close (f : nat) (x : R) :
  Rabs (round_to f x - x) <= / 2 / 10 ^ f.
Proof.
  unfold round_to.
  set (p := 10 ^ f). assert (Hp : 0 < p) by (apply pow_lt; lra).
  pose proof (Zfloor_bound (Rabs x * p + / 2)) as B.
  set (z := IZR (Zfloor (Rabs x * p + / 2))) in *.
  assert (Hi : 0 < / p) by now apply Rinv_0_lt_compat.
  assert (E : z / p - Rabs x = (z - Rabs x * p) * / p) by (field; lra).
  assert (D : Rabs (z / p - Rabs x) <= / 2 / p).
  { rewrite E. apply Rabs_le. unfold Rdiv. split; nra. }
  destruct (Rlt_dec x 0) as [Hneg|Hpos].
  - rewrite (Rabs_left x Hneg) in *.
    replace (-1 * z / p - x) with (- (z / p - - x)) by (field; lra).
    now rewrite Rabs_Ropp.
  - rewrite (Rabs_right x) in * by lra.
    replace (1 * z / p - x) with (z / p - x) by (field; lra).
    exact D.
Qed.

Lemma round_to_integer (f : nat) (n : Z) : round_to f (IZR n) = IZR n.
Proof.
  unfold round_to. set (p := 10 ^ f).
  assert (Hp : 0 < p) by (apply pow_lt; lra).
  assert (P : p = IZR (10 ^ Z.of_nat f)).
  { unfold p. rewrite <- pow_IZR. reflexivity. }
  rewrite <- abs_IZR, P, <- mult_IZR.
  replace (IZR (Z.abs n * 10 ^ Z.of_nat f) + / 2)
    with (/ 2 + IZR (Z.abs n * 10 ^ Z.of_nat f)) by ring.
  rewrite Zfloor_addz.
  replace (Zfloor (/ 2)) with 0%Z by (symmetry; apply Zfloor_eq; simpl; lra).
  rewrite Z.add_0_l, mult_IZR, <- P, abs_IZR.
  destruct (Rlt_dec (IZR n) 0) as [Hneg|Hpos].
  - rewrite (Rabs_left _ Hneg). field. lra.
  - rewrite Rabs_right by lra. field. lra.
Qed.

(** Below [10^21] the text starts with a digit, after a minus sign for a
    negative number. *)
Lemma toFixed_shape (r : R) (f : nat) :
  Rabs r < 10 ^ 21 ->
  exists c s, is_digit c = true
    /\ toFixed Number_toString (Finite r) f
       = if Rlt_dec r 0 then String "-" (String c s) else String c s.
Proof.
  intros Hr. unfold toFixed.
  destruct (Rle_dec (10 ^ 21) (Rabs r)) as [Hbig|_]; [lra|].
  destruct (scan_fixed_point (Z.to_N (Zfloor (Rabs r * 10 ^ f + / 2))) f)
    as (c & s & _ & _ & E & Hc & _).
  exists c, s. split; [assumption|]. rewrite E.
  destruct (Rlt_dec r 0); reflexivity.
Qed.

(** [toFixed] once the integer closest to [|r| * 10^f] is known. *)
Lemma toFixed_eval (r : R) (f : nat) (z : Z) :
  Rabs r < 10 ^ 21 ->
  IZR z <= Rabs r * 10 ^ f + / 2 < IZR z + 1 ->
  toFixed Number_toString (Finite r) f
  = ((if Rlt_dec r 0 then "-" else "") ++ fixed_point (Z.to_N z) f)%string.
Proof.
  intros Hr Hz. unfold toFixed.
  destruct (Rle_dec (10 ^ 21) (Rabs r)) as [Hbig|_]; [lra|].
  now rewrite (Zfloor_eq z _ Hz).
Qed.

Lemma small_lt_pow21 (x : R) : x <= 1000 -> x < 10 ^ 21.
Proof. intros H. simpl. lra. Qed.

End RoundTrip.

(** ** Arithmetic on finite numbers *)

Section FiniteArithmetic.

Local Open Scope R_scope.

Lemma div_finite (x y : R) : y <> 0 -> div (Finite x) (Finite y) = Finite (x / y).
Proof. intros H. cbn [div]. now rewrite Reqb_false. Qed.

Lemma rem_finite (x y : R) :
  y <> 0 -> rem (Finite x) (Finite y) = Finite (x - y * IZR (Rtrunc (x / y))).
Proof. intros H. cbn [rem]. now rewrite Reqb_false. Qed.

(** Machin's series after three and four terms. *)
Lemma PI_bounds : 3.14 < PI < 3.15.
Proof.
  pose proof (PI_2_3_7_ineq 1) as H.
  unfold sum_f_R0, tg_alt, PI_2_3_7_tg, Ratan_seq in H.
  simpl in H. lra.
Qed.

Lemma two_PI_neq0 : 2 * PI <> 0.
Proof. pose proof PI_RGT_0. lra. Qed.

(** The remainder of a division by a positive number lies strictly between
    minus the divisor and the divisor, and has the sign of the dividend. *)
Lemma Rtrunc_rem_bounds (x y : R) :
  0 < y ->
  let r := x - y * IZR (Rtrunc (x / y)) in
  (0 <= x -> 0 <= r < y) /\ (x < 0 -> - y < r <= 0).
Proof.
  intros Hy r. unfold r, Rtrunc.
  assert (E : x = y * (x / y)) by (field; lra).
  destruct (Rle_dec 0 (x / y)) as [Hq|Hq].
  - pose proof (Zfloor_bound (x / y)) as B.
    assert (Hx : 0 <= x) by (rewrite E; apply Rmult_le_pos; lra).
    split; [|lra]. intros _.
    set (q := x / y) in *. set (z := IZR (Zfloor q)) in *.
    rewrite E. split; nra.
  - pose proof (Zceil_bound (x / y)) as B.
    assert (Hx : x < 0).
    { apply Rnot_le_lt in Hq. rewrite E.
      set (q := x / y) in *. nra. }
    split; [lra|]. intros _.
    set (q := x / y) in *. set (z := IZR (Zceil q)) in *.
    rewrite E. split; nra.
Qed.

End FiniteArithmetic.

(** ** The ferris wheel *)

Section FerrisWheelFacts.

Import FerrisWheel.
Local Open Scope R_scope.

Lemma quadrant_color_inj (q q' : Quadrant) :
  quadrant_color q = quadrant_color q' -> q = q'.
Proof. destruct q, q'; simpl; intros E; try reflexivity; discriminate E. Qed.

Lemma in_quadrant_cover (a : R) :
  0 <= a < 2 * PI -> exists q, in_quadrant q a.
Proof.
  intros H.
  destruct (Rlt_dec a (PI / 2)); [exists Q1; simpl; lra|].
  destruct (Rlt_dec a PI); [exists Q2; simpl; lra|].
  destruct (Rlt_dec a (3 * PI / 2)); [exists Q3; simpl; lra|].
  exists Q4; simpl; lra.
Qed.

Lemma in_quadrant_disjoint (q q' : Quadrant) (a : R) :
  in_quadrant q a -> in_quadrant q' a -> q = q'.
Proof.
  pose proof PI_RGT_0.
  destruct q, q'; simpl; intros H1 H2; try reflexivity; lra.
Qed.

Lemma in_quadrant_range (q : Quadrant) (a : R) :
  in_quadrant q a -> 0 <= a < 2 * PI.
Proof. pose proof PI_RGT_0. destruct q; simpl; lra. Qed.

(** The normalisation of [getQuadrantColor] on a finite angle. *)
Lemma positiveAngle_finite (theta : R) :
  exists a, positiveAngle (Finite theta) = Finite a
            /\ 0 <= a < 2 * PI
            /\ (0 <= theta < 2 * PI -> a = theta).
Proof.
  pose proof PI_RGT_0 as HPI.
  unfold positiveAngle, normalized, Math_PI.
  cbn [mul]. rewrite rem_finite by apply two_PI_neq0.
  destruct (Rtrunc_rem_bounds theta (2 * PI) ltac:(lra)) as (Hpos & Hneg).
  set (r := theta - 2 * PI * IZR (Rtrunc (theta / (2 * PI)))) in *.
  cbn [lt add]. unfold Rltb.
  destruct (Rlt_dec r 0) as [Hr|Hr].
  - exists (r + 2 * PI). split; [reflexivity|].
    destruct (Rle_dec 0 theta) as [Ht|Ht]; [specialize (Hpos Ht); lra|].
    specialize (Hneg ltac:(lra)). split; lra.
  - exists r. split; [reflexivity|].
    destruct (Rle_dec 0 theta) as [Ht|Ht].
    + specialize (Hpos Ht). split; [lra|]. intros Hth.
      unfold r, Rtrunc. destruct (Rle_dec 0 (theta / (2 * PI))) as [Hq|Hq].
      * replace (Zfloor (theta / (2 * PI))) with 0%Z; [simpl; lra|].
        symmetry. apply Zfloor_eq. simpl. split; [lra|].
        apply Rmult_lt_reg_r with (2 * PI); [lra|].
        unfold Rdiv. rewrite Rmult_assoc, Rinv_l by lra. lra.
      * exfalso. apply Hq. apply Rmult_le_pos; [lra|].
        apply Rlt_le, Rinv_0_lt_compat. lra.
    + specialize (Hneg ltac:(lra)). split; lra.
Qed.

Lemma getQuadrantColor_finite (angle : number) (a : R) (q : Quadrant) :
  positiveAngle angle = Finite a -> in_quadrant q a ->
  getQuadrantColor angle = quadrant_color q.
Proof.
  pose proof PI_RGT_0 as HPI.
  intros E H. unfold getQuadrantColor. rewrite E. unfold Math_PI.
  cbn [mul]. rewrite !div_finite by lra. cbn [lt].
  destruct q; simpl in H; simpl quadrant_color.
  - rewrite Rltb_true by lra. reflexivity.
  - rewrite Rltb_false, Rltb_true by lra. reflexivity.
  - rewrite Rltb_false, Rltb_false, Rltb_true by lra. reflexivity.
  - rewrite !Rltb_false by lra. reflexivity.
Qed.

End FerrisWheelFacts.

Section FerrisWheelClaims.

Import FerrisWheel.
Local Open Scope R_scope.

Variable Number_toString : R -> string.

(** C6: [getQuadrantColor] splits [[0, 2π)] into the four half-open quarters
    [[0, π/2)], [[π/2, π)], [[π, 3π/2)] and [[3π/2, 2π)]: every angle of the
    range lies in exactly one of them, the colour returned is that of the
    quarter the angle lies in and of no other, and each of the boundary
    angles 0, π/2, π and 3π/2 gets the colour of the quarter it starts. *)
Theorem quadrant_partition (theta : R) :
  0 <= theta < 2 * PI ->
  (exists q, in_quadrant q theta /\ forall q', in_quadrant q' theta -> q' = q)
  /\ (forall q, getQuadrantColor (Finite theta) = quadrant_color q
                <-> in_quadrant q theta)
  /\ getQuadrantColor (Finite 0) = quadrant_color Q1
  /\ getQuadrantColor (Finite (PI / 2)) = quadrant_color Q2
  /\ getQuadrantColor (Finite PI) = quadrant_color Q3
  /\ getQuadrantColor (Finite (3 * PI / 2)) = quadrant_color Q4.
Proof.
  pose proof PI_RGT_0 as HPI. intros Hth.
  assert (color : forall t q, 0 <= t < 2 * PI -> in_quadrant q t ->
                  getQuadrantColor (Finite t) = quadrant_color q).
  { intros t q Ht Hq.
    destruct (positiveAngle_finite t) as (a & E & _ & Ha).
    rewrite (Ha Ht) in E. now apply getQuadrantColor_finite with t. }
  destruct (in_quadrant_cover theta Hth) as (q0 & Hq0).
  split; [|split].
  - exists q0. split; [assumption|].
    intros q' Hq'. now apply in_quadrant_disjoint with theta.
  - intros q. split.
    + intros E. rewrite (color theta q0 Hth Hq0) in E.
      apply quadrant_color_inj in E. now subst q.
    + now apply color.
  - repeat split; apply color; simpl; lra.
Qed.

Lemma quadrant_partition_witness :
  0 <= 1 < 2 * PI /\ getQuadrantColor (Finite 1) = quadrant_color Q1.
Proof.
  assert (H : 0 <= 1 < 2 * PI) by (pose proof PI2_3_2; lra).
  split; [exact H|].
  apply (quadrant_partition 1 H). simpl. pose proof PI2_3_2. lra.
Defined.

(** C10: [getQuadrantColor] is total on the real angles: for every real
    angle, however many turns from zero, the remainder modulo 2π, raised by
    2π when negative, lies in [[0, 2π)], and the colour returned is that of
    exactly one quadrant, the one this normalised angle lies in. *)
Theorem quadrant_total (theta : R) :
  exists a q,
    positiveAngle (Finite theta) = Finite a
    /\ 0 <= a < 2 * PI
    /\ in_quadrant q a
    /\ getQuadrantColor (Finite theta) = quadrant_color q
    /\ forall q', getQuadrantColor (Finite theta) = quadrant_color q' -> q' = q.
Proof.
  destruct (positiveAngle_finite theta) as (a & E & Ha & _).
  destruct (in_quadrant_cover a Ha) as (q & Hq).
  pose proof (getQuadrantColor_finite (Finite theta) a q E Hq) as C.
  exists a, q. repeat split; try assumption; try apply Ha.
  intros q' C'. rewrite C in C'. apply quadrant_color_inj in C'. now subst q'.
Qed.

(** C7: turning an angle into the degrees shown in the input (θ·180/π
    rounded to one decimal place) and back (deg·π/180, which is what
    [handleDegreeChange] stores for a text read as these degrees) gives the
    angle again up to half of 0.1 degrees, hence within the display tolerance
    of 0.1 degrees, which is below 0.0018 rad.  It holds for every real
    angle, in particular for θ in [[0, 2π)]. *)
Theorem degrees_round_trip (theta : R) :
  exists d a,
    displayDegrees (Finite theta) = Finite d
    /\ d = IZR (Zfloor (theta * 180 / PI * 10 + / 2)) / 10
    /\ Rabs (d - theta * 180 / PI) <= / 20
    /\ angleFromDegrees (Finite d) = Finite a
    /\ (forall value angle,
          parseFloat value = Finite d ->
          handleDegreeChange value angle = Finite a)
    /\ a = d * PI / 180
    /\ Rabs (a - theta) <= / 20 * (PI / 180)
    /\ / 20 * (PI / 180) < / 10 * (PI / 180)
    /\ / 10 * (PI / 180) < 0.0018.
Proof.
  pose proof PI_bounds as HPI.
  set (u := theta * 180 / PI * 10).
  pose proof (Zfloor_bound (u + / 2)) as B.
  exists (IZR (Zfloor (u + / 2)) / 10), (IZR (Zfloor (u + / 2)) / 10 * PI / 180).
  set (z := IZR (Zfloor (u + / 2))) in *.
  assert (Hd : Rabs (z / 10 - theta * 180 / PI) <= / 20).
  { replace (theta * 180 / PI) with (u / 10) by (unfold u; field; lra).
    apply Rabs_le. lra. }
  assert (Ha : angleFromDegrees (Finite (z / 10)) = Finite (z / 10 * PI / 180)).
  { unfold angleFromDegrees, Math_PI. cbn [mul]. rewrite div_finite by lra.
    reflexivity. }
  repeat split.
  - unfold displayDegrees, Math_PI. cbn [mul].
    rewrite (div_finite _ PI) by lra. cbn [mul Math_round].
    rewrite div_finite by lra. reflexivity.
  - exact Hd.
  - exact Ha.
  - intros value angle E. unfold handleDegreeChange. rewrite E. exact Ha.
  - replace (z / 10 * PI / 180 - theta)
      with ((z / 10 - theta * 180 / PI) * (PI / 180)) by (field; lra).
    rewrite Rabs_mult, (Rabs_right (PI / 180)) by lra.
    apply Rmult_le_compat_r; lra.
  - lra.
  - lra.
Qed.

(** C4: for every real angle the tan(θ) row shows the sentinel [∞] if and
    only if [|cos θ| < 0.001]; otherwise the cosine is not zero, so the
    quotient is an ordinary division, and the row shows the value
    [sin θ / cos θ], printed with four decimals: read back as a number it is
    within half a unit of the fourth decimal of the quotient.  The function
    is total: no case fails. *)
Theorem tangent_sentinel (theta : R) :
  (tanText Number_toString (Finite theta) = "∞"%string
   <-> Rabs (cos theta) < 0.001)
  /\ (0.001 <= Rabs (cos theta) ->
      cos theta <> 0
      /\ tanText Number_toString (Finite theta)
         = toFixed Number_toString (Finite (sin theta / cos theta)) 4
      /\ parseFloat (tanText Number_toString (Finite theta))
         = Finite (round_to 4 (sin theta / cos theta))
      /\ Rabs (round_to 4 (sin theta / cos theta) - sin theta / cos theta)
         <= / 2 / 10 ^ 4).
Proof.
  assert (far : 0.001 <= Rabs (cos theta) ->
            cos theta <> 0 /\ Rabs (sin theta / cos theta) < 10 ^ 21
            /\ tanText Number_toString (Finite theta)
               = toFixed Number_toString (Finite (sin theta / cos theta)) 4).
  { intros H.
    assert (Hc : cos theta <> 0).
    { intros E. rewrite E, Rabs_R0 in H. lra. }
    repeat split; [assumption | |].
    - apply small_lt_pow21. unfold Rdiv. rewrite Rabs_mult, Rabs_inv.
      pose proof (SIN_bound theta) as S.
      assert (S' : Rabs (sin theta) <= 1) by (apply Rabs_le; lra).
      assert (C' : / Rabs (cos theta) <= 1000).
      { replace 1000 with (/ 0.001) by lra.
        apply Rinv_le_contravar; lra. }
      pose proof (Rabs_pos (sin theta)).
      assert (0 < / Rabs (cos theta)) by (apply Rinv_0_lt_compat; lra).
      nra.
    - unfold tanText, rawCos, rawSin. cbn [Math_cos Math_sin Math_abs lt].
      rewrite Rltb_false by lra. now rewrite div_finite. }
  split; [split|].
  - intros E. destruct (Rlt_dec (Rabs (cos theta)) 0.001) as [|Hge]; [assumption|].
    exfalso. destruct (far ltac:(lra)) as (_ & Hb & T).
    rewrite T in E.
    destruct (toFixed_shape Number_toString _ 4 Hb) as (c & s & Hc & S).
    rewrite S in E.
    destruct (Rlt_dec (sin theta / cos theta) 0); [discriminate E|].
    injection E as Ec _. subst c. discriminate Hc.
  - intros H. unfold tanText, rawCos. cbn [Math_cos Math_abs lt].
    now rewrite Rltb_true.
  - intros H. destruct (far H) as (Hc & Hb & T).
    repeat split; [assumption | assumption | | apply round_to_close].
    rewrite T. now apply parseFloat_toFixed.
Qed.

(** The angle [updateAngle] stores for a mounted element and finite
    coordinates. *)
Lemma updateAngle_finite (l t cx cy : R) (angle : number) :
  updateAngle (Some {| left := Finite l; top := Finite t |})
              (Finite cx) (Finite cy) angle
  = Finite (if Rlt_dec (Ratan2 (t + 250 - cy) (cx - l - 250)) 0
            then Ratan2 (t + 250 - cy) (cx - l - 250) + 2 * PI
            else Ratan2 (t + 250 - cy) (cx - l - 250)).
Proof.
  unfold updateAngle, CENTER, Math_PI.
  cbn [left top x y sub add mul Math_atan2 lt]. unfold Rltb.
  destruct (Rlt_dec (Ratan2 (t + 250 - cy) (cx - l - 250)) 0); reflexivity.
Qed.

Lemma Ratan2_range (v u : R) : - PI < Ratan2 v u <= PI.
Proof.
  pose proof PI_RGT_0 as HPI. unfold Ratan2.
  pose proof (atan_bound (v / u)) as B.
  destruct (Rlt_dec 0 u) as [Hu|Hu]; [lra|].
  destruct (Rlt_dec u 0) as [Hu'|Hu'].
  - assert (Hi : / u < 0) by now apply Rinv_neg.
    destruct (Rle_dec 0 v) as [Hv|Hv].
    + assert (Hq : v / u <= 0) by (unfold Rdiv; nra).
      assert (atan (v / u) <= 0).
      { destruct Hq as [Hq|Hq].
        - apply Rlt_le. rewrite <- atan_0. now apply atan_increasing.
        - rewrite Hq, atan_0. lra. }
      lra.
    + assert (Hq : 0 < v / u) by (unfold Rdiv; nra).
      assert (0 < atan (v / u)) by (rewrite <- atan_0; now apply atan_increasing).
      lra.
  - destruct (Rlt_dec 0 v); [lra|]. destruct (Rlt_dec v 0); lra.
Qed.

Lemma Ratan2_axes (d : R) :
  0 < d ->
  Ratan2 0 d = 0 /\ Ratan2 d 0 = PI / 2
  /\ Ratan2 0 (- d) = PI /\ Ratan2 (- d) 0 = - (PI / 2).
Proof.
  intros Hd. unfold Ratan2. repeat split.
  - destruct (Rlt_dec 0 d); [|contradiction].
    now rewrite Rdiv_0_l, atan_0.
  - destruct (Rlt_dec 0 0); [lra|]. destruct (Rlt_dec 0 d); [|contradiction].
    reflexivity.
  - destruct (Rlt_dec 0 (- d)); [lra|]. destruct (Rlt_dec (- d) 0); [|lra].
    destruct (Rle_dec 0 0); [|lra]. rewrite Rdiv_0_l, atan_0. lra.
  - destruct (Rlt_dec 0 0); [lra|]. destruct (Rlt_dec 0 (- d)); [lra|].
    destruct (Rlt_dec (- d) 0); [|lra]. reflexivity.
Qed.

(** C5: [updateAngle] takes the arctangent of the pointer offset from the
    centre, the vertical offset flipped, and adds 2π to a negative result,
    so the stored angle lies in [[0, 2π)]; a pointer at distance [d] to the
    right of the centre gives 0, above it π/2, to its left π and below it
    3π/2. *)
Theorem pointer_angle (l t cx cy d : R) (angle : number) :
  0 < d ->
  let svgRef := Some {| left := Finite l; top := Finite t |} in
  (exists a,
     updateAngle svgRef (Finite cx) (Finite cy) angle = Finite a
     /\ a = (if Rlt_dec (Ratan2 (t + 250 - cy) (cx - l - 250)) 0
             then Ratan2 (t + 250 - cy) (cx - l - 250) + 2 * PI
             else Ratan2 (t + 250 - cy) (cx - l - 250))
     /\ 0 <= a < 2 * PI)
  /\ updateAngle svgRef (Finite (l + 250 + d)) (Finite (t + 250)) angle
     = Finite 0
  /\ updateAngle svgRef (Finite (l + 250)) (Finite (t + 250 - d)) angle
     = Finite (PI / 2)
  /\ updateAngle svgRef (Finite (l + 250 - d)) (Finite (t + 250)) angle
     = Finite PI
  /\ updateAngle svgRef (Finite (l + 250)) (Finite (t + 250 + d)) angle
     = Finite (3 * PI / 2).
Proof.
  pose proof PI_RGT_0 as HPI. intros Hd svgRef. unfold svgRef.
  destruct (Ratan2_axes d Hd) as (Er & Ea & El & Eb).
  split; [|repeat split].
  - eexists. split; [apply updateAngle_finite|]. split; [reflexivity|].
    pose proof (Ratan2_range (t + 250 - cy) (cx - l - 250)) as B.
    destruct (Rlt_dec (Ratan2 (t + 250 - cy) (cx - l - 250)) 0); lra.
  - rewrite updateAngle_finite.
    replace (t + 250 - (t + 250)) with 0 by ring.
    replace (l + 250 + d - l - 250) with d by ring.
    rewrite Er. destruct (Rlt_dec 0 0); [lra | reflexivity].
  - rewrite updateAngle_finite.
    replace (t + 250 - (t + 250 - d)) with d by ring.
    replace (l + 250 - l - 250) with 0 by ring.
    rewrite Ea. destruct (Rlt_dec (PI / 2) 0); [lra | reflexivity].
  - rewrite updateAngle_finite.
    replace (t + 250 - (t + 250)) with 0 by ring.
    replace (l + 250 - d - l - 250) with (- d) by ring.
    rewrite El. destruct (Rlt_dec PI 0); [lra | reflexivity].
  - rewrite updateAngle_finite.
    replace (t + 250 - (t + 250 + d)) with (- d) by ring.
    replace (l + 250 - l - 250) with 0 by ring.
    rewrite Eb. destruct (Rlt_dec (- (PI / 2)) 0); [|lra].
    f_equal. field.
Qed.

End FerrisWheelClaims.

(** ** The function plotter *)

Section SamplingLoop.

Import FunctionPlotter.
Local Open Scope R_scope.

Variable Number_toString : R -> string.

Lemma grid_from_length (s : R) (n : nat) :
  forall x, List.length (grid_from x s n) = n.
Proof. induction n as [|n IH]; intros x; simpl; [reflexivity | now rewrite IH]. Qed.

(** The [i]-th grid value is the start plus [i] steps. *)
Lemma grid_from_nth (s : R) (n : nat) :
  forall x i, (i < n)%nat ->
  exists v, nth_error (grid_from x s n) i = Some v /\ v = x + INR i * s.
Proof.
  induction n as [|n IH]; intros x i Hi; [lia|].
  destruct i as [|i].
  - exists x. split; [reflexivity|]. simpl. ring.
  - destruct (IH (x + s) i ltac:(lia)) as (v & E & Hv).
    exists v. split; [exact E|]. rewrite Hv, S_INR. ring.
Qed.

(** The loop runs as long as the guard holds and stops the first time it
    fails, provided the fuel lasts one test longer than the iterations. *)
Lemma loop_finite (params : PlotParams) (e s : R) (n : nat) :
  forall fuel x,
  (n < fuel)%nat ->
  (forall i, (i < n)%nat -> x + INR i * s <= e) ->
  e < x + INR n * s ->
  loop Number_toString fuel params (Finite x) (Finite e) (Finite s)
  = Some (List.map (fun v => sample Number_toString params (Finite v))
                   (grid_from x s n)).
Proof.
  induction n as [|n IH]; intros fuel x Hf Hin Hout;
    (destruct fuel as [|fuel]; [lia|]); cbn [loop le].
  - simpl in Hout. rewrite Rleb_false by lra. reflexivity.
  - pose proof (Hin 0%nat ltac:(lia)) as H0. simpl in H0.
    rewrite Rleb_true by lra. cbn [add].
    rewrite (IH fuel (x + s)).
    + reflexivity.
    + lia.
    + intros i Hi. pose proof (Hin (S i) ltac:(lia)) as H.
      rewrite S_INR in H. lra.
    + rewrite S_INR in Hout. lra.
Qed.

Lemma start_finite : start = Finite (- 2 * PI).
Proof. reflexivity. Qed.

Lemma end_finite : end_ = Finite (2 * PI).
Proof. reflexivity. Qed.

Lemma step_finite : step = Finite ((2 * PI - - 2 * PI) / 200).
Proof.
  unfold step. rewrite start_finite, end_finite. cbn [sub].
  rewrite div_finite by lra. reflexivity.
Qed.

(** The plot: 201 points, whatever the parameters are. *)
Lemma data_spec (fuel : nat) (params : PlotParams) :
  (202 <= fuel)%nat ->
  data Number_toString fuel params
  = Some (List.map (fun v => sample Number_toString params (Finite v))
                   (grid_from (- 2 * PI) ((2 * PI - - 2 * PI) / 200) 201)).
Proof.
  pose proof PI_RGT_0 as HPI. intros Hf.
  unfold data. rewrite start_finite, end_finite, step_finite.
  apply loop_finite; [lia | |].
  - intros i Hi.
    assert (Hi' : INR i <= 200).
    { replace 200 with (INR 200) by (rewrite INR_IZR_INZ; reflexivity).
      apply le_INR. lia. }
    nra.
  - replace (INR 201) with 201 by (rewrite INR_IZR_INZ; reflexivity).
    lra.
Qed.

(** A point of the plot, by its index. *)
Lemma data_nth (fuel : nat) (params : PlotParams) (i : nat) :
  (202 <= fuel)%nat -> (i < 201)%nat ->
  exists pts x,
    data Number_toString fuel params = Some pts
    /\ nth_error pts i = Some (sample Number_toString params (Finite x))
    /\ x = - 2 * PI + INR i * (4 * PI / 200).
Proof.
  intros Hf Hi.
  destruct (grid_from_nth ((2 * PI - - 2 * PI) / 200) 201 (- 2 * PI) i Hi)
    as (v & E & Hv).
  eexists. exists v. split; [now apply data_spec|]. split.
  - rewrite nth_error_map, E. reflexivity.
  - rewrite Hv. field.
Qed.

(** A point of the plot is the sample at some grid value. *)
Lemma data_In (fuel : nat) (params : PlotParams) (pts : list DataPoint)
    (pt : DataPoint) :
  (202 <= fuel)%nat ->
  data Number_toString fuel params = Some pts -> In pt pts ->
  exists x i, pt = sample Number_toString params (Finite x)
              /\ (i < 201)%nat /\ x = - 2 * PI + INR i * (4 * PI / 200).
Proof.
  intros Hf E Hin. pose proof (data_spec fuel params Hf) as D.
  assert (Epts : pts = List.map
                         (fun v => sample Number_toString params (Finite v))
                         (grid_from (- 2 * PI) ((2 * PI - - 2 * PI) / 200) 201))
    by congruence.
  rewrite Epts in Hin. clear D E Epts.
  apply in_map_iff in Hin. destruct Hin as (v & <- & Hv).
  apply In_nth_error in Hv. destruct Hv as (i & Hi).
  assert (Hlt : (i < 201)%nat).
  { rewrite <- (grid_from_length ((2 * PI - - 2 * PI) / 200) 201 (- 2 * PI)).
    apply nth_error_Some. rewrite Hi. discriminate. }
  destruct (grid_from_nth ((2 * PI - - 2 * PI) / 200) 201 (- 2 * PI) i Hlt)
    as (v' & E' & Hv').
  rewrite Hi in E'. injection E' as <-.
  exists v, i. split; [reflexivity|]. split; [assumption|].
  rewrite Hv'. field.
Qed.

End SamplingLoop.

Section Binary64Grid.

Import Binary64.

Lemma loop_fuel_mono (e s : float) (fuel : nat) :
  forall x l fuel', loop fuel x e s = Some l -> (fuel <= fuel')%nat ->
  loop fuel' x e s = Some l.
Proof.
  induction fuel as [|fuel IH]; intros x l fuel' E Hf; [discriminate E|].
  destruct fuel' as [|fuel']; [lia|].
  cbn [loop] in *. destruct (PrimFloat.leb x e); [|assumption].
  destruct (loop fuel (x + s)%float e s) as [l'|] eqn:E'; [|discriminate E].
  rewrite (IH _ l' fuel' E') by lia. exact E.
Qed.

(** In binary64 arithmetic too, the guard holds 201 times and then fails:
    the 201st value is just below [2 * Math.PI], the 202nd above it. *)
Lemma grid_201 (fuel : nat) :
  (202 <= fuel)%nat ->
  exists xs, grid fuel = Some xs /\ grid_ok xs = true.
Proof.
  intros Hf.
  assert (L : match grid 202 with Some xs => grid_ok xs | None => false end = true)
    by (vm_compute; reflexivity).
  destruct (grid 202) as [xs|] eqn:E; [|discriminate L].
  exists xs. split; [|exact L].
  unfold grid in *. now apply loop_fuel_mono with 202%nat.
Qed.

Lemma grid_ok_length (xs : list float) :
  grid_ok xs = true -> List.length xs = 201%nat.
Proof.
  unfold grid_ok. intros H.
  apply andb_prop in H. destruct H as (H & _).
  apply andb_prop in H. destruct H as (H & _).
  apply andb_prop in H. destruct H as (H & _).
  now apply Nat.eqb_eq.
Qed.

End Binary64Grid.

Section FunctionPlotterClaims.

Import FunctionPlotter.
Local Open Scope string_scope.
Local Open Scope R_scope.

Variable Number_toString : R -> string.

Lemma sample_finite (a w f c x : R) :
  let v := a * sin (w * x + f * PI) + c in
  let params := {| A := Finite a; omega := Finite w;
                   phi := Finite f; k := Finite c |} in
  xVal (sample Number_toString params (Finite x)) = Finite x
  /\ standard (sample Number_toString params (Finite x))
     = Finite (round_to 3 (sin x))
  /\ (Rabs v < 10 ^ 21 ->
      y (sample Number_toString params (Finite x)) = Finite (round_to 3 v)).
Proof.
  intros v params. split; [reflexivity|]. split.
  - cbn [sample standard Math_sin]. apply parseFloat_toFixed.
    apply small_lt_pow21. pose proof (SIN_bound x).
    assert (Rabs (sin x) <= 1) by (apply Rabs_le; lra). lra.
  - intros Hv. unfold params, Math_PI.
    cbn [sample y A omega phi k mul add Math_sin].
    now apply parseFloat_toFixed.
Qed.

(** C2: with the default parameters the plot has exactly 201 points, once
    the fuel covers the 202 tests of the loop guard; their x values run from
    -2π to 2π inclusive in 200 equal steps of 4π/200; and the first point,
    at x = -2π, has transformed value 0.  The loop counter does not depend
    on the sine, and run in binary64 arithmetic it too passes the guard
    exactly 201 times, from [start] to a last value within [2^-40] of
    [end_]. *)
Theorem default_plot_points (fuel : nat) :
  (202 <= fuel)%nat ->
  exists pts,
    data Number_toString fuel defaultParams = Some pts
    /\ List.length pts = 201%nat
    /\ (forall i, (i < 201)%nat ->
        exists pt, nth_error pts i = Some pt
                   /\ xVal pt = Finite (- 2 * PI + INR i * (4 * PI / 200)))
    /\ (exists first, nth_error pts 0 = Some first
                      /\ xVal first = Finite (- 2 * PI)
                      /\ y first = Finite 0)
    /\ (exists last, nth_error pts 200 = Some last
                     /\ xVal last = Finite (2 * PI))
    /\ (exists xs, Binary64.grid fuel = Some xs
                   /\ List.length xs = 201%nat /\ grid_ok xs = true).
Proof.
  intros Hf. eexists. split; [now apply data_spec|].
  assert (nth : forall i, (i < 201)%nat ->
            exists x, nth_error
                        (List.map
                           (fun v => sample Number_toString defaultParams (Finite v))
                           (grid_from (- 2 * PI) ((2 * PI - - 2 * PI) / 200) 201)) i
                      = Some (sample Number_toString defaultParams (Finite x))
                      /\ x = - 2 * PI + INR i * (4 * PI / 200)).
  { intros i Hi.
    destruct (data_nth Number_toString fuel defaultParams i Hf Hi)
      as (pts & x & D & N & Hx).
    rewrite data_spec in D by assumption. injection D as <-.
    now exists x. }
  split; [|split; [|split; [|split]]].
  - now rewrite length_map, grid_from_length.
  - intros i Hi. destruct (nth i Hi) as (x & N & Hx).
    eexists. split; [exact N|]. cbn [sample xVal]. now rewrite Hx.
  - destruct (nth 0%nat ltac:(lia)) as (x & N & Hx).
    eexists. split; [exact N|].
    assert (Ex : x = - (2 * PI)) by (rewrite Hx; simpl; ring).
    split.
    + cbn [sample xVal]. f_equal. rewrite Ex. ring.
    + destruct (sample_finite 1 1 0 0 x) as (_ & _ & Y).
      change {| A := Finite 1; omega := Finite 1; phi := Finite 0; k := Finite 0 |}
        with defaultParams in Y.
      assert (V : 1 * sin (1 * x + 0 * PI) + 0 = IZR 0).
      { replace (1 * x + 0 * PI) with (- (2 * PI)) by (rewrite Ex; ring).
        rewrite sin_neg, sin_2PI. ring. }
      rewrite Y; rewrite V.
      * now rewrite round_to_integer.
      * apply small_lt_pow21. rewrite Rabs_R0. lra.
  - destruct (nth 200%nat ltac:(lia)) as (x & N & Hx).
    eexists. split; [exact N|]. cbn [sample xVal]. f_equal.
    rewrite Hx. replace (INR 200) with 200 by (rewrite INR_IZR_INZ; reflexivity).
    field.
  - destruct (grid_201 fuel Hf) as (xs & G & K).
    exists xs. split; [exact G|]. split; [now apply grid_ok_length | exact K].
Qed.

(** C8: every point of the plot carries, for its x on the grid, the
    reference value [sin x] and the transformed value [A·sin(ω·x + φ·π) + k],
    each rounded to 3 decimal places ([toFixed] prints fixed-point notation
    below [10^21], which the sine always is); rounding moves a value by at
    most 0.0005.
    For A = 2, ω = 1, φ = 0.5, k = 1 the point at x = 0, the 101st, has
    transformed value 3. *)
Theorem sample_point_values (a w f c : R) (fuel : nat) :
  (202 <= fuel)%nat ->
  (exists pts,
     data Number_toString fuel
          {| A := Finite a; omega := Finite w; phi := Finite f; k := Finite c |}
     = Some pts
     /\ forall pt, In pt pts ->
        exists x i,
          (i < 201)%nat /\ x = - 2 * PI + INR i * (4 * PI / 200)
          /\ xVal pt = Finite x
          /\ standard pt = Finite (round_to 3 (sin x))
          /\ Rabs (round_to 3 (sin x) - sin x) <= / 2 / 10 ^ 3
          /\ (Rabs (a * sin (w * x + f * PI) + c) < 10 ^ 21 ->
              y pt = Finite (round_to 3 (a * sin (w * x + f * PI) + c))
              /\ Rabs (round_to 3 (a * sin (w * x + f * PI) + c)
                       - (a * sin (w * x + f * PI) + c)) <= / 2 / 10 ^ 3))
  /\ (exists pts pt,
        data Number_toString fuel
             {| A := Finite 2; omega := Finite 1; phi := Finite 0.5; k := Finite 1 |}
        = Some pts
        /\ nth_error pts 100 = Some pt
        /\ xVal pt = Finite 0
        /\ y pt = Finite 3).
Proof.
  intros Hf. split.
  - eexists. split; [now apply data_spec|].
    intros pt Hin.
    destruct (data_In Number_toString fuel _ _ pt Hf
                (data_spec Number_toString fuel _ Hf) Hin) as (x & i & -> & Hi & Hx).
    destruct (sample_finite a w f c x) as (X & S & Y).
    exists x, i. split; [exact Hi|]. split; [exact Hx|].
    split; [exact X|]. split; [exact S|].
    split; [apply round_to_close|].
    intros Hv. split; [now apply Y | apply round_to_close].
  - destruct (data_nth Number_toString fuel
                {| A := Finite 2; omega := Finite 1; phi := Finite 0.5; k := Finite 1 |}
                100 Hf ltac:(lia)) as (pts & x & D & N & Hx).
    assert (Ex : x = 0).
    { rewrite Hx. replace (INR 100) with 100 by (rewrite INR_IZR_INZ; reflexivity).
      field. }
    exists pts. eexists. split; [exact D|]. split; [exact N|].
    destruct (sample_finite 2 1 0.5 1 x) as (X & _ & Y). split.
    + rewrite X. now rewrite Ex.
    + assert (V : 2 * sin (1 * x + 0.5 * PI) + 1 = IZR 3).
      { replace (1 * x + 0.5 * PI) with (PI / 2) by (rewrite Ex; lra).
        rewrite sin_PI2. ring. }
      rewrite Y; rewrite V.
      * now rewrite round_to_integer.
      * apply small_lt_pow21. rewrite Rabs_right; lra.
Qed.

(** C9: the plots of any two parameter sets, numbers of any kind, have the
    same number of points, and point by point the same x values and the same
    reference values: grid and reference curve do not depend on the
    parameters. *)
Theorem grid_and_reference_independent (p1 p2 : PlotParams) (fuel : nat) :
  (202 <= fuel)%nat ->
  exists pts1 pts2,
    data Number_toString fuel p1 = Some pts1
    /\ data Number_toString fuel p2 = Some pts2
    /\ List.length pts1 = List.length pts2
    /\ List.map xVal pts1 = List.map xVal pts2
    /\ List.map standard pts1 = List.map standard pts2.
Proof.
  intros Hf. do 2 eexists.
  split; [now apply data_spec|]. split; [now apply data_spec|].
  rewrite !length_map, !map_map. repeat split.
Qed.

Lemma formatXAxis_finite (x : R) :
  formatXAxis Number_toString (Finite x)
  = let v := x / PI in
    if Rltb (Rabs v) 0.01 then "0"
    else if Rltb (Rabs (v - 1)) 0.01 then "π"
    else if Rltb (Rabs (v + 1)) 0.01 then "-π"
    else if Rltb (Rabs (v - 2)) 0.01 then "2π"
    else if Rltb (Rabs (v + 2)) 0.01 then "-2π"
    else if Rltb (Rabs (v - 0.5)) 0.01 then "π/2"
    else if Rltb (Rabs (v + 0.5)) 0.01 then "-π/2"
    else (toFixed Number_toString (Finite v) 1 ++ "π")%string.
Proof.
  unfold formatXAxis, Math_PI. rewrite div_finite by apply PI_neq0.
  reflexivity.
Qed.

(** Linear arithmetic under absolute values, by cases on their signs. *)
Ltac abs_lra :=
  unfold Rabs in *;
  repeat match goal with
         | |- context [Rcase_abs ?e] => destruct (Rcase_abs e)
         | H : context [Rcase_abs ?e] |- _ => destruct (Rcase_abs e)
         end;
  lra.

(** C3: [formatXAxis] labels a tick by its coefficient [v = x/π]: it tries
    the targets 0, 1, -1, 2, -2, 0.5 and -0.5 in this order, each with the
    guard [|v - target| < 0.01], and answers with the label of the first
    that holds, "0", "π", "-π", "2π", "-2π", "π/2" or "-π/2" (the guards
    exclude one another, so a label is returned exactly when its guard
    holds); when none holds the label is [v] with one decimal followed by
    "π".  In particular π gives "π", 0 gives "0" and 3π gives "3.0π". *)
Theorem axis_tick_label (x : R) :
  let v := x / PI in
  let label := formatXAxis Number_toString (Finite x) in
  (Rabs v < 0.01 -> label = "0"%string)
  /\ (Rabs (v - 1) < 0.01 -> label = "π"%string)
  /\ (Rabs (v + 1) < 0.01 -> label = "-π"%string)
  /\ (Rabs (v - 2) < 0.01 -> label = "2π"%string)
  /\ (Rabs (v + 2) < 0.01 -> label = "-2π"%string)
  /\ (Rabs (v - 0.5) < 0.01 -> label = "π/2"%string)
  /\ (Rabs (v + 0.5) < 0.01 -> label = "-π/2"%string)
  /\ (0.01 <= Rabs v -> 0.01 <= Rabs (v - 1) -> 0.01 <= Rabs (v + 1) ->
      0.01 <= Rabs (v - 2) -> 0.01 <= Rabs (v + 2) ->
      0.01 <= Rabs (v - 0.5) -> 0.01 <= Rabs (v + 0.5) ->
      label = (toFixed Number_toString (Finite v) 1 ++ "π")%string)
  /\ formatXAxis Number_toString (Finite PI) = "π"%string
  /\ formatXAxis Number_toString (Finite 0) = "0"%string
  /\ formatXAxis Number_toString (Finite (3 * PI)) = "3.0π"%string.
Proof.
  pose proof PI_RGT_0 as HPI.
  intros v label. unfold label. rewrite formatXAxis_finite. fold v. cbv zeta.
  split; [|split; [|split; [|split; [|split; [|split; [|split; [|split]]]]]]].
  - intros H. now rewrite Rltb_true.
  - intros H. rewrite Rltb_false by abs_lra. now rewrite Rltb_true.
  - intros H. rewrite !Rltb_false by abs_lra. now rewrite Rltb_true.
  - intros H. rewrite !Rltb_false by abs_lra. now rewrite Rltb_true.
  - intros H. rewrite !Rltb_false by abs_lra. now rewrite Rltb_true.
  - intros H. rewrite !Rltb_false by abs_lra. now rewrite Rltb_true.
  - intros H. rewrite !Rltb_false by abs_lra. now rewrite Rltb_true.
  - intros H0 H1 H2 H3 H4 H5 H6. now rewrite !Rltb_false by assumption.
  - repeat split; rewrite formatXAxis_finite; cbv zeta.
    + replace (PI / PI) with 1 by (field; lra).
      rewrite Rltb_false by abs_lra. rewrite Rltb_true by abs_lra. reflexivity.
    + replace (0 / PI) with 0 by (field; lra).
      rewrite Rltb_true by abs_lra. reflexivity.
    + replace (3 * PI / PI) with 3 by (field; lra).
      rewrite !Rltb_false by abs_lra.
      rewrite (toFixed_eval Number_toString 3 1 30).
      * destruct (Rlt_dec 3 0); [lra | reflexivity].
      * apply small_lt_pow21. abs_lra.
      * simpl. abs_lra.
Qed.

End FunctionPlotterClaims.

(** ** Entries that are not numbers *)

Section InvalidEntry.

Import FerrisWheel FunctionPlotter.
Local Open Scope string_scope.
Local Open Scope R_scope.

(** C1, as the code has it: a text that [parseFloat] reads as [NaN] leaves
    the angle as it is when typed into the degree input; typed into one of
    the four parameter inputs it sets that parameter to 0, by the fallback
    [|| 0], and leaves the other three as they are. *)
Theorem invalid_entry (value : string) :
  parseFloat value = NaN ->
  (forall angle, handleDegreeChange value angle = angle)
  /\ (forall params,
        onChange_A value params
        = {| A := Finite 0; omega := omega params;
             phi := phi params; k := k params |}
        /\ onChange_omega value params
           = {| A := A params; omega := Finite 0;
                phi := phi params; k := k params |}
        /\ onChange_phi value params
           = {| A := A params; omega := omega params;
                phi := Finite 0; k := k params |}
        /\ onChange_k value params
           = {| A := A params; omega := omega params;
                phi := phi params; k := Finite 0 |}).
Proof.
  intros E. split.
  - intros angle. unfold handleDegreeChange. now rewrite E.
  - intros params.
    unfold onChange_A, onChange_omega, onChange_phi, onChange_k.
    rewrite E. repeat split.
Qed.

(** C1 as stated fails on the parameter inputs: the empty text, which is what
    a number input holds while its content is no number, is read as [NaN],
    and typed into any of the four inputs it replaces a non-zero parameter
    by 0 instead of keeping it. *)
Lemma invalid_entry_not_retained :
  let params := {| A := Finite 2; omega := Finite 1;
                   phi := Finite 0.5; k := Finite 1 |} in
  parseFloat "" = NaN
  /\ onChange_A "" params <> params
  /\ onChange_omega "" params <> params
  /\ onChange_phi "" params <> params
  /\ onChange_k "" params <> params.
Proof.
  intros params. split; [reflexivity|].
  repeat split; intros E.
  - apply (f_equal A) in E. cbv in E. injection E as E. lra.
  - apply (f_equal omega) in E. cbv in E. injection E as E. lra.
  - apply (f_equal phi) in E. cbv in E. injection E as E. lra.
  - apply (f_equal k) in E. cbv in E. injection E as E. lra.
Qed.

End InvalidEntry.

(** ** Instances *)

Section Instances.

Import FerrisWheel FunctionPlotter.
Local Open Scope string_scope.
Local Open Scope R_scope.

Lemma invalid_entry_witness :
  parseFloat "" = NaN /\ handleDegreeChange "" (Finite 1) = Finite 1.
Proof.
  split; [reflexivity|].
  apply (proj1 (invalid_entry "" eq_refl)).
Defined.

Lemma degrees_round_trip_witness :
  exists a, handleDegreeChange "30" (Finite (PI / 6)) = Finite a
            /\ Rabs (a - PI / 6) <= / 20 * (PI / 180).
Proof.
  destruct (degrees_round_trip (PI / 6))
    as (d & a & _ & Ed & _ & _ & H & _ & B & _).
  exists a. split; [|exact B].
  apply H. change (parseFloat "30") with (Finite (literal_value "30" "" 0)).
  f_equal. rewrite Ed.
  replace (PI / 6 * 180 / PI * 10 + / 2) with (/ 2 + IZR 300)
    by (field; apply PI_neq0).
  rewrite Zfloor_addz.
  replace (Zfloor (/ 2)) with 0%Z by (symmetry; apply Zfloor_eq; simpl; lra).
  unfold literal_value. simpl. lra.
Defined.

Lemma default_plot_points_witness :
  (202 <= 202)%nat
  /\ exists pts, data no_exponent 202 defaultParams = Some pts
                 /\ List.length pts = 201%nat.
Proof.
  split; [lia|].
  destruct (default_plot_points no_exponent 202 (le_n 202)) as (pts & D & L & _).
  exists pts. split; assumption.
Defined.

Lemma axis_tick_label_witness :
  Rabs (0 / PI) < 0.01 /\ formatXAxis no_exponent (Finite 0) = "0".
Proof.
  assert (H : Rabs (0 / PI) < 0.01) by (rewrite Rdiv_0_l, Rabs_R0; lra).
  split; [exact H|].
  exact (proj1 (axis_tick_label no_exponent 0) H).
Defined.

Lemma tangent_sentinel_witness :
  0.001 <= Rabs (cos 0)
  /\ tanText no_exponent (Finite 0)
     = toFixed no_exponent (Finite (sin 0 / cos 0)) 4.
Proof.
  assert (H : 0.001 <= Rabs (cos 0)) by (rewrite cos_0, Rabs_R1; lra).
  split; [exact H|].
  exact (proj1 (proj2 (proj2 (tangent_sentinel no_exponent 0) H))).
Defined.

Lemma pointer_angle_witness :
  0 < 1
  /\ updateAngle (Some {| left := Finite 0; top := Finite 0 |})
                 (Finite (0 + 250 + 1)) (Finite (0 + 250)) NaN
     = Finite 0.
Proof.
  split; [lra|].
  exact (proj1 (proj2 (pointer_angle 0 0 0 0 1 NaN Rlt_0_1))).
Defined.

Lemma sample_point_values_witness :
  (202 <= 202)%nat
  /\ exists pts pt,
       data no_exponent 202
            {| A := Finite 2; omega := Finite 1; phi := Finite 0.5; k := Finite 1 |}
       = Some pts
       /\ nth_error pts 100 = Some pt
       /\ y pt = Finite 3.
Proof.
  split; [lia|].
  destruct (sample_point_values no_exponent 2 1 0.5 1 202 (le_n 202))
    as (_ & pts & pt & D & N & _ & Y).
  exists pts, pt. repeat split; assumption.
Defined.

Lemma grid_and_reference_independent_witness :
  (202 <= 202)%nat
  /\ exists pts1 pts2,
       data no_exponent 202 defaultParams = Some pts1
       /\ data no_exponent 202
               {| A := Finite 2; omega := Finite 1; phi := Finite 0.5; k := Finite 1 |}
          = Some pts2
       /\ List.map xVal pts1 = List.map xVal pts2
       /\ List.map standard pts1 = List.map standard pts2.
Proof.
  split; [lia|].
  destruct (grid_and_reference_independent no_exponent defaultParams
              {| A := Finite 2; omega := Finite 1; phi := Finite 0.5; k := Finite 1 |}
              202 (le_n 202)) as (pts1 & pts2 & D1 & D2 & _ & X & S).
  exists pts1, pts2. repeat split; assumption.
Defined.

End Instances.

(** * Further properties of the two views *)

(** ** The cabin and the pointer *)

Section CabinAndPointer.

Import FerrisWheel.
Local Open Scope R_scope.

Lemma pointX_finite (theta : R) :
  pointX (Finite theta) = Finite (250 + 160 * cos theta).
Proof. reflexivity. Qed.

Lemma pointY_finite (theta : R) :
  pointY (Finite theta) = Finite (250 - 160 * sin theta).
Proof. reflexivity. Qed.

(** X1: The cabin is drawn on the circle of radius [RADIUS] around [CENTER],
    whatever the angle, and so inside the square from 90 to 410 of the 500
    by 500 view box. *)
Theorem cabin_on_wheel (theta : R) :
  exists px py,
    pointX (Finite theta) = Finite px /\ pointY (Finite theta) = Finite py
    /\ (px - 250) * (px - 250) + (py - 250) * (py - 250) = 160 * 160
    /\ 90 <= px <= 410 /\ 90 <= py <= 410.
Proof.
  exists (250 + 160 * cos theta), (250 - 160 * sin theta).
  pose proof (sin2_cos2 theta) as H. unfold Rsqr in H.
  pose proof (SIN_bound theta). pose proof (COS_bound theta).
  repeat split; try lra; nra.
Qed.

Lemma sin_full_turn (x : R) : sin (x + 2 * PI) = sin x.
Proof. rewrite sin_plus, sin_2PI, cos_2PI. ring. Qed.

Lemma cos_full_turn (x : R) : cos (x + 2 * PI) = cos x.
Proof. rewrite cos_plus, sin_2PI, cos_2PI. ring. Qed.

(** The direction of [Ratan2 v u] is that of the vector [(u, v)]. *)
Lemma Ratan2_direction (v u : R) :
  u <> 0 \/ v <> 0 ->
  u * sin (Ratan2 v u) = v * cos (Ratan2 v u)
  /\ 0 < u * cos (Ratan2 v u) + v * sin (Ratan2 v u).
Proof.
  intros Hne. unfold Ratan2.
  assert (at_ : u <> 0 ->
            0 < cos (atan (v / u))
            /\ sin (atan (v / u)) = v / u * cos (atan (v / u))).
  { intros Hu. pose proof (atan_bound (v / u)) as B.
    assert (Hc : 0 < cos (atan (v / u))) by (apply cos_gt_0; lra).
    split; [assumption|].
    pose proof (tan_atan (v / u)) as T. unfold tan in T.
    rewrite <- T at 2. field. lra. }
  destruct (Rlt_dec 0 u) as [Hu|Hu].
  - destruct (at_ ltac:(lra)) as (Hc & Hs). rewrite Hs.
    set (c := cos (atan (v / u))) in *.
    assert (Hi : 0 < / u) by now apply Rinv_0_lt_compat.
    split; [field; lra|].
    replace (u * c + v * (v / u * c)) with (c * (u * u + v * v) * / u)
      by (field; lra).
    apply Rmult_lt_0_compat; [|assumption].
    apply Rmult_lt_0_compat; [assumption | nra].
  - destruct (Rlt_dec u 0) as [Hu'|Hu'].
    + destruct (at_ ltac:(lra)) as (Hc & Hs).
      assert (Hi : / u < 0) by now apply Rinv_neg.
      assert (E : sin (atan (v / u) + PI) = - sin (atan (v / u))
                  /\ cos (atan (v / u) + PI) = - cos (atan (v / u))
                  /\ sin (atan (v / u) - PI) = - sin (atan (v / u))
                  /\ cos (atan (v / u) - PI) = - cos (atan (v / u))).
      { rewrite neg_sin, neg_cos, sin_minus, cos_minus, sin_PI, cos_PI.
        repeat split; ring. }
      destruct E as (E1 & E2 & E3 & E4).
      assert (G : u * - sin (atan (v / u)) = v * - cos (atan (v / u))
                  /\ 0 < u * - cos (atan (v / u)) + v * - sin (atan (v / u))).
      { rewrite Hs. set (c := cos (atan (v / u))) in *.
        split; [field; lra|].
        replace (u * - c + v * - (v / u * c))
          with (c * (u * u + v * v) * - / u) by (field; lra).
        apply Rmult_lt_0_compat; [|lra].
        apply Rmult_lt_0_compat; [assumption | nra]. }
      destruct (Rle_dec 0 v); [rewrite E1, E2 | rewrite E3, E4]; exact G.
    + assert (u = 0) by lra. subst u.
      destruct (Rlt_dec 0 v) as [Hv|Hv].
      * rewrite sin_PI2, cos_PI2. split; lra.
      * destruct (Rlt_dec v 0) as [Hv'|Hv'].
        -- rewrite sin_neg, cos_neg, sin_PI2, cos_PI2. split; lra.
        -- exfalso. destruct Hne as [Hne|Hne]; apply Hne; lra.
Qed.

(** X2: After [updateAngle] the cabin is drawn on the ray from the centre
    through the pointer: the offsets of cabin and pointer from the centre
    are parallel and point the same way.  It holds for every pointer
    position other than the centre itself, where the angle becomes 0. *)
Theorem cabin_follows_pointer (l t cx cy : R) (angle0 : number) :
  cx - l - 250 <> 0 \/ cy - t - 250 <> 0 ->
  let svgRef := Some {| left := Finite l; top := Finite t |} in
  (exists a px py,
     updateAngle svgRef (Finite cx) (Finite cy) angle0 = Finite a
     /\ pointX (Finite a) = Finite px /\ pointY (Finite a) = Finite py
     /\ (px - 250) * (cy - t - 250) = (py - 250) * (cx - l - 250)
     /\ 0 < (px - 250) * (cx - l - 250) + (py - 250) * (cy - t - 250))
  /\ updateAngle svgRef (Finite (l + 250)) (Finite (t + 250)) angle0 = Finite 0.
Proof.
  intros Hne svgRef. unfold svgRef. split.
  - rewrite updateAngle_finite.
    set (u := cx - l - 250) in *. set (v := t + 250 - cy).
    assert (Hv : cy - t - 250 = - v) by (unfold v; ring).
    rewrite Hv in *.
    destruct (Ratan2_direction v u) as (Hx & Hd).
    { destruct Hne as [Hne|Hne]; [now left | right; lra]. }
    exists (if Rlt_dec (Ratan2 v u) 0 then Ratan2 v u + 2 * PI else Ratan2 v u),
           (250 + 160 * cos (Ratan2 v u)), (250 - 160 * sin (Ratan2 v u)).
    split; [reflexivity|].
    rewrite pointX_finite, pointY_finite.
    destruct (Rlt_dec (Ratan2 v u) 0);
      rewrite ?sin_full_turn, ?cos_full_turn;
      (split; [reflexivity|]); (split; [reflexivity|]); split; nra.
  - rewrite updateAngle_finite.
    replace (t + 250 - (t + 250)) with 0 by ring.
    replace (l + 250 - l - 250) with 0 by ring.
    unfold Ratan2. destruct (Rlt_dec 0 0); [lra|].
    destruct (Rlt_dec 0 0); [lra|]. reflexivity.
Qed.

Lemma cabin_follows_pointer_witness :
  (300 - 0 - 250 <> 0 \/ 250 - 0 - 250 <> 0)
  /\ updateAngle (Some {| left := Finite 0; top := Finite 0 |})
                 (Finite (0 + 250)) (Finite (0 + 250)) NaN = Finite 0.
Proof.
  assert (H : 300 - 0 - 250 <> 0 \/ 250 - 0 - 250 <> 0) by (left; lra).
  split; [exact H|].
  exact (proj2 (cabin_follows_pointer 0 0 300 250 NaN H)).
Defined.

End CabinAndPointer.

Section DragRoundTrip.

Import FerrisWheel.
Local Open Scope R_scope.

Lemma trig_minus_PI (x : R) :
  sin (x - PI) = - sin x /\ cos (x - PI) = - cos x.
Proof. rewrite sin_minus, cos_minus, sin_PI, cos_PI. split; ring. Qed.

(** [Ratan2] gives back the angle of a point in polar coordinates. *)
Lemma Ratan2_polar (r theta : R) :
  0 < r -> - PI < theta <= PI ->
  Ratan2 (r * sin theta) (r * cos theta) = theta.
Proof.
  pose proof PI_RGT_0 as HPI. intros Hr Hth. unfold Ratan2.
  destruct (Rlt_dec theta (- (PI / 2))) as [L|L].
  - (* third quadrant *)
    assert (Hc : cos theta < 0).
    { rewrite <- cos_neg. apply cos_lt_0; lra. }
    assert (Hs : sin theta < 0) by (apply sin_lt_0_var; lra).
    destruct (Rlt_dec 0 (r * cos theta)); [nra|].
    destruct (Rlt_dec (r * cos theta) 0); [|nra].
    destruct (Rle_dec 0 (r * sin theta)); [nra|].
    replace (r * sin theta / (r * cos theta)) with (tan (theta + PI)).
    + rewrite atan_tan by lra. ring.
    + unfold tan. rewrite neg_sin, neg_cos. field. lra.
  - destruct (Req_dec_T theta (- (PI / 2))) as [E|E].
    + subst theta. rewrite sin_neg, cos_neg, sin_PI2, cos_PI2, Rmult_0_r.
      repeat match goal with
             | |- context [Rlt_dec ?a ?b] => destruct (Rlt_dec a b)
             end; try lra; reflexivity.
    + destruct (Rlt_dec theta (PI / 2)) as [M|M].
      * assert (Hc : 0 < cos theta) by (apply cos_gt_0; lra).
        destruct (Rlt_dec 0 (r * cos theta)); [|nra].
        replace (r * sin theta / (r * cos theta)) with (tan theta)
          by (unfold tan; field; lra).
        apply atan_tan. lra.
      * destruct (Req_dec_T theta (PI / 2)) as [E'|E'].
        -- subst theta. rewrite sin_PI2, cos_PI2, Rmult_0_r.
           destruct (Rlt_dec 0 0); [lra|].
           destruct (Rlt_dec 0 (r * 1)); [reflexivity | lra].
        -- assert (Hc : cos theta < 0) by (apply cos_lt_0; lra).
           assert (Hs : 0 <= sin theta) by (apply sin_ge_0; lra).
           destruct (Rlt_dec 0 (r * cos theta)); [nra|].
           destruct (Rlt_dec (r * cos theta) 0); [|nra].
           destruct (Rle_dec 0 (r * sin theta)); [|nra].
           destruct (trig_minus_PI theta) as (S & C).
           replace (r * sin theta / (r * cos theta)) with (tan (theta - PI)).
           ++ rewrite atan_tan by lra. ring.
           ++ unfold tan. rewrite S, C. field. lra.
Qed.

(** X3: A pointer placed on the radius arm of an angle in [[0, 2π)], at any
    distance from the centre and in particular on the cabin itself, gives
    this angle back: grabbing the cabin does not move it. *)
Theorem drag_round_trip (l t r theta : R) (angle0 : number) :
  0 < r -> 0 <= theta < 2 * PI ->
  updateAngle (Some {| left := Finite l; top := Finite t |})
              (Finite (l + (250 + r * cos theta)))
              (Finite (t + (250 - r * sin theta))) angle0
  = Finite theta.
Proof.
  pose proof PI_RGT_0 as HPI. intros Hr Hth.
  rewrite updateAngle_finite.
  replace (t + 250 - (t + (250 - r * sin theta))) with (r * sin theta) by ring.
  replace (l + (250 + r * cos theta) - l - 250) with (r * cos theta) by ring.
  destruct (Rle_dec theta PI) as [Hle|Hgt].
  - rewrite Ratan2_polar by lra.
    destruct (Rlt_dec theta 0); [lra | reflexivity].
  - replace (sin theta) with (sin (theta - 2 * PI))
      by (rewrite <- (sin_full_turn (theta - 2 * PI)); f_equal; ring).
    replace (cos theta) with (cos (theta - 2 * PI))
      by (rewrite <- (cos_full_turn (theta - 2 * PI)); f_equal; ring).
    rewrite Ratan2_polar by lra.
    destruct (Rlt_dec (theta - 2 * PI) 0); [|lra].
    f_equal. ring.
Qed.

Lemma drag_round_trip_witness :
  0 < 160 /\ 0 <= 1 < 2 * PI
  /\ updateAngle (Some {| left := Finite 8; top := Finite 64 |})
                 (Finite (8 + (250 + 160 * cos 1)))
                 (Finite (64 + (250 - 160 * sin 1))) NaN
     = Finite 1.
Proof.
  assert (Hr : 0 < 160) by lra.
  assert (Hth : 0 <= 1 < 2 * PI) by (pose proof PI2_3_2; lra).
  split; [exact Hr|]. split; [exact Hth|].
  exact (drag_round_trip 8 64 160 1 NaN Hr Hth).
Defined.

End DragRoundTrip.

(** ** Colour, signs and full turns *)

Section ColourAndSigns.

Import FerrisWheel.
Local Open Scope R_scope.








End ColourAndSigns.

(** ** Dragging *)

Section Dragging.

Import FerrisWheel.
Local Open Scope R_scope.

Lemma dispatch_move_released (e : Event) (s : State) :
  is_move e = true -> isDragging s = false -> dispatch e s = Some s.
Proof.
  intros He Hs. destruct e; try discriminate He; cbn [dispatch].
  - unfold handleMouseMove. now rewrite Hs.
  - unfold handleTouchMove. now rewrite Hs.
Qed.

Lemma run_moves_released (moves : list Event) (s : State) :
  forallb is_move moves = true -> isDragging s = false -> run moves s = Some s.
Proof.
  intros Hm Hs. induction moves as [|e moves IH]; [reflexivity|].
  simpl in Hm. apply andb_prop in Hm. destruct Hm as (He & Hm).
  cbn [run]. rewrite (dispatch_move_released e s He Hs). now apply IH.
Qed.

(** X6: The wheel turns only while the pointer is pressed: once the pointer is
    released, on the wheel or anywhere in the window, any sequence of mouse
    and touch moves leaves the angle as it was at the release, and none of
    them fails, a touch move without touches included; likewise before the
    first press. *)
Theorem released_moves_ignored (e : Event) (moves : list Event) (s : State) :
  is_end e = true -> forallb is_move moves = true ->
  run (e :: moves) s = Some {| angle := angle s; isDragging := false |}
  /\ run moves initialState = Some initialState.
Proof.
  intros He Hm. split.
  - cbn [run].
    assert (D : dispatch e s = Some {| angle := angle s; isDragging := false |})
      by (destruct e; try discriminate He; reflexivity).
    rewrite D. now apply run_moves_released.
  - now apply run_moves_released.
Qed.

Lemma released_moves_ignored_witness :
  run [window_mouseup; onMouseMove None (Finite 3) (Finite 4); onTouchMove None []]
      {| angle := Finite 1; isDragging := true |}
  = Some {| angle := Finite 1; isDragging := false |}.
Proof.
  exact (proj1 (released_moves_ignored window_mouseup
                  [onMouseMove None (Finite 3) (Finite 4); onTouchMove None []]
                  {| angle := Finite 1; isDragging := true |} eq_refl eq_refl)).
Defined.

Lemma updateAngle_in_range (svgRef : option DOMRect) (cx cy a0 : number) :
  finite_ref svgRef -> is_finite cx -> is_finite cy ->
  (exists a, a0 = Finite a /\ 0 <= a < 2 * PI) ->
  exists a, updateAngle svgRef cx cy a0 = Finite a /\ 0 <= a < 2 * PI.
Proof.
  pose proof PI_RGT_0 as HPI.
  intros Href (x & ->) (y & ->) Ha0.
  destruct svgRef as [[l t]|]; [|exact Ha0].
  destruct Href as ((l' & Hl) & (t' & Ht)). simpl in Hl, Ht. subst l t.
  rewrite updateAngle_finite. eexists. split; [reflexivity|].
  pose proof (Ratan2_range (t' + 250 - y) (x - l' - 250)) as B.
  destruct (Rlt_dec (Ratan2 (t' + 250 - y) (x - l' - 250)) 0); lra.
Qed.

Lemma initialAngle_finite : initialAngle = Finite (PI / 6).
Proof. unfold initialAngle, Math_PI. now rewrite div_finite by lra. Qed.

(** X7: Dragging keeps the angle within one turn: from a state whose angle lies
    in [[0, 2π)], as the initial angle π/6 does, every sequence of pointer
    events with finite coordinates runs without failure and ends in a state
    whose angle lies in [[0, 2π)]; only the degree input can leave the
    range. *)
Theorem drag_keeps_angle_in_range (events : list Event) (s : State) :
  Forall pointer_event events ->
  (exists a, angle s = Finite a /\ 0 <= a < 2 * PI) ->
  (exists s' a', run events s = Some s'
                 /\ angle s' = Finite a' /\ 0 <= a' < 2 * PI)
  /\ (exists a, angle initialState = Finite a /\ 0 <= a < 2 * PI).
Proof.
  pose proof PI_RGT_0 as HPI. intros Hev Hs. split.
  - revert s Hs. induction Hev as [|e events He _ IH]; intros s Hs.
    + destruct Hs as (a & Ea & Ha). exists s, a. now repeat split.
    + cbn [run].
      assert (D : exists s1, dispatch e s = Some s1
                             /\ exists a, angle s1 = Finite a /\ 0 <= a < 2 * PI).
      { destruct e; cbn [pointer_event] in He; cbn [dispatch];
          try (eexists; split; [reflexivity | exact Hs]).
        - destruct He as (Href & Hx & Hy). unfold handleMouseMove.
          destruct (isDragging s); eexists; (split; [reflexivity|]);
            [now apply updateAngle_in_range | exact Hs].
        - destruct He as (Href & touch & rest & -> & Hx & Hy).
          unfold handleTouchMove.
          destruct (isDragging s); eexists; (split; [reflexivity|]);
            [now apply updateAngle_in_range | exact Hs].
        - contradiction. }
      destruct D as (s1 & D & Hs1). rewrite D. now apply IH.
  - exists (PI / 6). cbn [initialState angle]. split; [apply initialAngle_finite|].
    lra.
Qed.

Lemma drag_keeps_angle_in_range_witness :
  exists s' a',
    run [onMouseDown;
         onMouseMove (Some {| left := Finite 0; top := Finite 0 |})
                     (Finite 100) (Finite 300);
         onMouseUp] initialState = Some s'
    /\ angle s' = Finite a' /\ 0 <= a' < 2 * PI.
Proof.
  refine (proj1 (drag_keeps_angle_in_range _ initialState _ _)).
  - repeat constructor; try (now exists 0); try (now exists 100);
      now exists 300.
  - exists (PI / 6). split; [apply initialAngle_finite|].
    pose proof PI_RGT_0. lra.
Defined.

End Dragging.

(** ** The degree input *)

Section DegreeInput.

Import FerrisWheel.
Local Open Scope R_scope.





End DegreeInput.

(** ** Spokes and the angle arc *)

Section SpokesAndArc.

Import FerrisWheel.
Local Open Scope R_scope.

Lemma spoke_finite (i : R) :
  spoke (Finite i)
  = {| x1 := Finite 250; y1 := Finite 250;
       x2 := Finite (250 + 160 * cos (i * 2 * PI / 12));
       y2 := Finite (250 - 160 * sin (i * 2 * PI / 12)) |}.
Proof.
  unfold spoke, spokeAngle, WHEEL_SPOKES, Math_PI. cbn [mul].
  now rewrite div_finite by lra.
Qed.

Lemma spokes_nth (i : nat) :
  (i < 12)%nat -> nth_error spokes i = Some (spoke (Finite (INR i))).
Proof.
  intros Hi. unfold spokes. rewrite nth_error_map.
  do 12 (destruct i as [|i]; [reflexivity|]). lia.
Qed.

(** X10: The wheel has twelve spokes, each from the centre to a point of the
    circle the cabin moves on. *)
Theorem spokes_reach_the_wheel :
  List.length spokes = 12%nat
  /\ forall ln, In ln spokes ->
     x1 ln = Finite 250 /\ y1 ln = Finite 250
     /\ exists ex ey,
          x2 ln = Finite ex /\ y2 ln = Finite ey
          /\ (ex - 250) * (ex - 250) + (ey - 250) * (ey - 250) = 160 * 160.
Proof.
  split; [reflexivity|].
  intros ln Hin. unfold spokes in Hin. apply in_map_iff in Hin.
  destruct Hin as (i & <- & _). rewrite spoke_finite. cbn [x1 y1 x2 y2].
  split; [reflexivity|]. split; [reflexivity|].
  do 2 eexists. split; [reflexivity|]. split; [reflexivity|].
  pose proof (sin2_cos2 (INR i * 2 * PI / 12)) as H. unfold Rsqr in H. nra.
Qed.

(** X11: The spokes come in opposite pairs: spoke [i + 6] ends at the mirror
    image, through the centre, of the end of spoke [i]. *)
Theorem spokes_opposite (i : nat) :
  (i < 6)%nat ->
  exists a b ax ay bx by_,
    nth_error spokes i = Some a /\ nth_error spokes (i + 6) = Some b
    /\ x2 a = Finite ax /\ y2 a = Finite ay
    /\ x2 b = Finite bx /\ y2 b = Finite by_
    /\ ax + bx = 500 /\ ay + by_ = 500.
Proof.
  intros Hi. do 6 eexists.
  split; [apply spokes_nth; lia|]. split; [apply spokes_nth; lia|].
  rewrite !spoke_finite. cbn [x2 y2].
  repeat (split; [reflexivity|]).
  rewrite plus_INR.
  replace ((INR i + INR 6) * 2 * PI / 12) with (INR i * 2 * PI / 12 + PI)
    by (simpl; field).
  rewrite neg_sin, neg_cos. split; ring.
Qed.

Lemma spokes_opposite_witness :
  (2 < 6)%nat
  /\ exists a b, nth_error spokes 2 = Some a /\ nth_error spokes 8 = Some b.
Proof.
  assert (H : (2 < 6)%nat) by lia. split; [exact H|].
  destruct (spokes_opposite 2 H) as (a & b & _ & _ & _ & _ & Ha & Hb & _).
  exists a, b. split; assumption.
Defined.

Lemma arcEnd_finite (theta : R) :
  arcEnd (Finite theta)
  = {| x := Finite (250 + 40 * cos (- theta));
       y := Finite (250 + 40 * sin (- theta)) |}.
Proof. reflexivity. Qed.

(** X12: The angle arc ends on the radius arm: its end point lies on the segment
    from the centre to the cabin, a quarter of the way out, for every real
    angle; and start and end point both lie on the circle of radius 40
    around the centre, the radius the arc is drawn with. *)
Theorem arc_ends_on_arm (theta : R) :
  exists ex ey px py,
    arcEnd (Finite theta) = {| x := Finite ex; y := Finite ey |}
    /\ pointX (Finite theta) = Finite px /\ pointY (Finite theta) = Finite py
    /\ ex - 250 = (px - 250) / 4 /\ ey - 250 = (py - 250) / 4
    /\ (ex - 250) * (ex - 250) + (ey - 250) * (ey - 250) = 40 * 40
    /\ arcStart = {| x := Finite (250 + 40); y := Finite 250 |}.
Proof.
  do 4 eexists. split; [apply arcEnd_finite|].
  split; [apply pointX_finite|]. split; [apply pointY_finite|].
  rewrite cos_neg, sin_neg.
  pose proof (sin2_cos2 theta) as H. unfold Rsqr in H.
  split; [field|]. split; [field|]. split; [nra | reflexivity].
Qed.

Lemma arcLargeFlag_finite (theta : R) :
  arcLargeFlag (Finite theta)
  = if Rlt_dec PI (theta - 2 * PI * IZR (Rtrunc (theta / (2 * PI))))
    then Finite 1 else Finite 0.
Proof.
  unfold arcLargeFlag, Math_PI. cbn [mul].
  rewrite rem_finite by apply two_PI_neq0. cbn [gt lt]. unfold Rltb.
  destruct (Rlt_dec PI (theta - 2 * PI * IZR (Rtrunc (theta / (2 * PI)))));
    reflexivity.
Qed.

Lemma rem_within_turn (theta : R) :
  0 <= theta < 2 * PI ->
  theta - 2 * PI * IZR (Rtrunc (theta / (2 * PI))) = theta.
Proof.
  pose proof PI_RGT_0 as HPI. intros H.
  assert (Hq : 0 <= theta / (2 * PI) < 1).
  { split.
    - apply Rmult_le_pos; [lra|]. apply Rlt_le, Rinv_0_lt_compat. lra.
    - apply Rmult_lt_reg_r with (2 * PI); [lra|].
      unfold Rdiv. rewrite Rmult_assoc, Rinv_l by lra. lra. }
  unfold Rtrunc. destruct (Rle_dec 0 (theta / (2 * PI))); [|lra].
  replace (Zfloor (theta / (2 * PI))) with 0%Z
    by (symmetry; apply Zfloor_eq; simpl; lra).
  simpl. ring.
Qed.

(** X13: The large-arc flag of the angle arc is 0 or 1.  Within one turn it is 1
    exactly for the angles beyond π, so that the arc goes the long way round
    from the x axis to the arm; for a negative angle, which the degree input
    can store, it is never 1, the remainder taking the sign of the angle. *)
Theorem arc_large_flag (theta : R) :
  (arcLargeFlag (Finite theta) = Finite 0 \/ arcLargeFlag (Finite theta) = Finite 1)
  /\ (0 <= theta < 2 * PI ->
      (arcLargeFlag (Finite theta) = Finite 1 <-> PI < theta))
  /\ (theta < 0 -> arcLargeFlag (Finite theta) = Finite 0).
Proof.
  pose proof PI_RGT_0 as HPI. rewrite arcLargeFlag_finite.
  split; [|split].
  - destruct (Rlt_dec PI _); [now right | now left].
  - intros H. rewrite (rem_within_turn theta H).
    destruct (Rlt_dec PI theta) as [Hlt|Hge]; split; intros G;
      try assumption; try reflexivity.
    + injection G as G. lra.
    + contradiction.
  - intros H.
    destruct (Rtrunc_rem_bounds theta (2 * PI) ltac:(lra)) as (_ & Hneg).
    specialize (Hneg H).
    destruct (Rlt_dec PI _); [lra | reflexivity].
Qed.

Lemma arc_large_flag_witness :
  0 <= 4 < 2 * PI /\ PI < 4 /\ arcLargeFlag (Finite 4) = Finite 1.
Proof.
  pose proof PI_bounds as B.
  assert (H : 0 <= 4 < 2 * PI) by lra.
  assert (G : PI < 4) by lra.
  split; [exact H|]. split; [exact G|].
  exact (proj2 (proj1 (proj2 (arc_large_flag 4)) H) G).
Defined.

End SpokesAndArc.

(** ** The texts of the values *)

Section ValueTexts.

Local Open Scope string_scope.

Lemma digits_aux_length (fuel : nat) :
  forall n acc k, (1 <= k)%nat -> (n < 10 ^ N.of_nat k)%N ->
  (String.length (digits_aux fuel n acc) <= k + String.length acc)%nat.
Proof.
  induction fuel as [|fuel IH]; intros n acc k Hk Hn; cbn [digits_aux].
  - simpl. lia.
  - destruct (N.ltb_spec n 10) as [Hlt|Hge]; [simpl; lia|].
    destruct k as [|[|k]]; [lia | simpl in Hn; lia |].
    specialize (IH (n / 10)%N (String (digit_char (n mod 10)) acc) (S k)).
    cbn [String.length] in IH.
    assert (Hd : (n / 10 < 10 ^ N.of_nat (S k))%N).
    { apply N.Div0.div_lt_upper_bound.
      rewrite (Nat2N.inj_succ (S k)), N.pow_succ_r' in Hn. exact Hn. }
    specialize (IH ltac:(lia) Hd). lia.
Qed.

Lemma fixed_point_length (n : N) (f : nat) :
  (0 < f)%nat -> (n < 10 ^ N.of_nat (f + 1))%N ->
  String.length (fixed_point n f) = (f + 2)%nat.
Proof.
  intros Hf Hn. unfold fixed_point. destruct f as [|f']; [lia|].
  set (f := S f') in *.
  pose proof (digits_aux_length (N.to_nat (N.log2 n)) n "" (f + 1) ltac:(lia) Hn)
    as Hd.
  fold (decimal_digits n) in Hd. simpl String.length in Hd at 2.
  destruct (zeros_spec (f + 1 - String.length (decimal_digits n))) as (_ & Zl & _).
  set (m := zeros (f + 1 - String.length (decimal_digits n)) ++ decimal_digits n).
  assert (Hk : String.length m = (f + 1)%nat).
  { unfold m. rewrite append_length, Zl. lia. }
  pose proof (substring_split m (String.length m - f) ltac:(lia)) as Hs.
  replace (String.length m - (String.length m - f))%nat with f in Hs by lia.
  apply (f_equal String.length) in Hs. rewrite append_length in Hs.
  rewrite append_length. cbn [append String.length]. lia.
Qed.

Local Open Scope R_scope.

Variable Number_toString : R -> string.

(** A value between -1 and 1 printed with [f] decimals: one digit, the
    point and [f] digits, after a minus sign when the value is negative. *)
Lemma toFixed_unit_width (v : R) (f : nat) :
  (0 < f)%nat -> Rabs v <= 1 ->
  String.length (toFixed Number_toString (Finite v) f)
  = if Rlt_dec v 0 then (f + 3)%nat else (f + 2)%nat.
Proof.
  intros Hf Hv. unfold toFixed.
  destruct (Rle_dec (10 ^ 21) (Rabs v)) as [Hbig|_].
  { exfalso. pose proof (small_lt_pow21 (Rabs v) ltac:(lra)). lra. }
  set (z := Zfloor (Rabs v * 10 ^ f + / 2)).
  assert (Hz0 : (0 <= z)%Z).
  { apply Zfloor_half_nonneg. apply Rmult_le_pos; [apply Rabs_pos|].
    apply pow_le. lra. }
  assert (Hz1 : (z <= 10 ^ Z.of_nat f)%Z).
  { pose proof (Zfloor_bound (Rabs v * 10 ^ f + / 2)) as B. fold z in B.
    assert (P : 0 < 10 ^ f) by (apply pow_lt; lra).
    assert (Hlt : IZR z < IZR (10 ^ Z.of_nat f + 1)).
    { rewrite plus_IZR, <- pow_IZR. simpl IZR at 2. nra. }
    apply lt_IZR in Hlt. lia. }
  assert (Hn : (Z.to_N z < 10 ^ N.of_nat (f + 1))%N).
  { apply N2Z.inj_lt. rewrite Z2N.id, N2Z.inj_pow, nat_N_Z by assumption.
    change (Z.of_N 10) with 10%Z.
    rewrite Nat2Z.inj_add, Z.pow_add_r by lia.
    change (10 ^ Z.of_nat 1)%Z with 10%Z.
    assert (0 < 10 ^ Z.of_nat f)%Z by (apply Z.pow_pos_nonneg; lia). lia. }
  rewrite append_length, (fixed_point_length _ _ Hf Hn).
  destruct (Rlt_dec v 0); simpl; lia.
Qed.

Lemma scan_unsigned_fixed_suffix (a b : string) (c : ascii) (r : string) :
  digits_only a = true -> a <> ""%string -> digits_only b = true ->
  is_digit c = false -> c <> "e"%char -> c <> "E"%char ->
  scan_unsigned (a ++ "." ++ b ++ String c r) = Some (LitDecimal a b 0).
Proof.
  intros Ha Hne Hb Hc He HE. unfold scan_unsigned.
  destruct a as [|d a]; [contradiction|].
  pose proof Ha as Hd. simpl in Hd. apply andb_prop in Hd. destruct Hd as (Hd & _).
  change ("." ++ b ++ String c r)%string with (String "." (b ++ String c r)).
  destruct (digit_first d (a ++ String "." (b ++ String c r)) Hd) as (_ & I & _ & _).
  change (String d a ++ String "." (b ++ String c r))%string
    with (String d (a ++ String "." (b ++ String c r))).
  rewrite I.
  change (String d (a ++ String "." (b ++ String c r)))
    with (String d a ++ String "." (b ++ String c r))%string.
  rewrite span_digits_app; [| assumption | intros c' r' E; now inversion E].
  rewrite span_digits_app;
    [| assumption | intros c' r' E; injection E as <- _; assumption].
  cbn [scan_exponent].
  apply Ascii.eqb_neq in He, HE. rewrite He, HE. reflexivity.
Qed.

(** Reading a printed value back does not depend on what follows it, as
    long as that is no digit and no exponent mark. *)
Lemma parseFloat_toFixed_suffix (v : R) (f : nat) (c : ascii) (r : string) :
  (0 < f)%nat -> Rabs v < 10 ^ 21 ->
  is_digit c = false -> c <> "e"%char -> c <> "E"%char ->
  parseFloat (toFixed Number_toString (Finite v) f ++ String c r)
  = Finite (round_to f v).
Proof.
  intros Hf Hv Hc He HE. unfold toFixed, round_to.
  destruct (Rle_dec (10 ^ 21) (Rabs v)) as [Hbig|_]; [lra|].
  set (z := Zfloor (Rabs v * 10 ^ f + / 2)).
  assert (Hz : (0 <= z)%Z).
  { apply Zfloor_half_nonneg. apply Rmult_le_pos; [apply Rabs_pos|].
    apply pow_le. lra. }
  destruct (fixed_point_spec (Z.to_N z) f Hf)
    as (a & b & E & Ha & Hne & Hb & Hl & Hval).
  rewrite E.
  assert (S : scan_unsigned (a ++ "." ++ b ++ String c r)
              = Some (LitDecimal a b 0))
    by now apply scan_unsigned_fixed_suffix.
  assert (V : literal_value a b 0 = IZR z / 10 ^ f).
  { unfold literal_value. rewrite Hval, Hl, powerRZ_10_neg, Z2N.id by assumption.
    reflexivity. }
  assert (A : ((a ++ "." ++ b) ++ String c r = a ++ "." ++ b ++ String c r)%string).
  { now rewrite append_assoc. }
  destruct a as [|d a]; [contradiction|].
  assert (Hd : is_digit d = true) by (simpl in Ha; now apply andb_prop in Ha).
  destruct (Rlt_dec v 0) as [Hneg|Hpos].
  - change (("-" ++ String d a ++ "." ++ b) ++ String c r)%string
      with (String "-" ((String d a ++ "." ++ b) ++ String c r)).
    rewrite A.
    change (String d a ++ "." ++ b ++ String c r)%string
      with (String d (a ++ "." ++ b ++ String c r)) in *.
    rewrite parseFloat_minus_digit, S. cbn [signed]. rewrite V.
    f_equal. unfold Rdiv. ring.
  - change (("" ++ String d a ++ "." ++ b) ++ String c r)%string
      with ((String d a ++ "." ++ b) ++ String c r)%string.
    rewrite A.
    change (String d a ++ "." ++ b ++ String c r)%string
      with (String d (a ++ "." ++ b ++ String c r)) in *.
    rewrite parseFloat_digit_first, S by assumption. cbn [signed]. rewrite V.
    f_equal. unfold Rdiv. ring.
Qed.

End ValueTexts.

Section FerrisWheelTexts.

Import FerrisWheel.
Local Open Scope R_scope.

Variable Number_toString : R -> string.

Lemma Rabs_sin_le_1 (x : R) : Rabs (sin x) <= 1.
Proof. pose proof (SIN_bound x). apply Rabs_le. lra. Qed.

Lemma Rabs_cos_le_1 (x : R) : Rabs (cos x) <= 1.
Proof. pose proof (COS_bound x). apply Rabs_le. lra. Qed.

(** X14: The sine and cosine texts of the info panel have a fixed shape: one
    digit before the point and three (coordinate card) or four (value rows)
    after it, preceded by a minus sign exactly when the value is negative;
    never an exponent, never more digits.  Read back, each is the value
    rounded to its decimals. *)
Theorem trig_texts_fixed_width (theta : R) :
  (String.length (cosCoordText Number_toString (Finite theta))
   = if Rlt_dec (cos theta) 0 then 6%nat else 5%nat)
  /\ (String.length (sinCoordText Number_toString (Finite theta))
      = if Rlt_dec (sin theta) 0 then 6%nat else 5%nat)
  /\ (String.length (sinText Number_toString (Finite theta))
      = if Rlt_dec (sin theta) 0 then 7%nat else 6%nat)
  /\ (String.length (cosText Number_toString (Finite theta))
      = if Rlt_dec (cos theta) 0 then 7%nat else 6%nat)
  /\ parseFloat (cosCoordText Number_toString (Finite theta))
     = Finite (round_to 3 (cos theta))
  /\ parseFloat (sinCoordText Number_toString (Finite theta))
     = Finite (round_to 3 (sin theta))
  /\ parseFloat (sinText Number_toString (Finite theta))
     = Finite (round_to 4 (sin theta))
  /\ parseFloat (cosText Number_toString (Finite theta))
     = Finite (round_to 4 (cos theta)).
Proof.
  pose proof (Rabs_sin_le_1 theta) as Hs. pose proof (Rabs_cos_le_1 theta) as Hc.
  unfold cosCoordText, sinCoordText, sinText, cosText, rawCos, rawSin.
  cbn [Math_cos Math_sin].
  repeat split;
    try (rewrite toFixed_unit_width by (assumption || lia); reflexivity);
    apply parseFloat_toFixed; apply small_lt_pow21; lra.
Qed.

(** X15: The radian text is the angle in units of π with two decimals: read back
    as a number, the text gives θ/π rounded to two decimals, within 0.005 of
    θ/π, as long as the quotient is below [10^21]. *)
Theorem radText_reads_back (theta : R) :
  Rabs (theta / PI) < 10 ^ 21 ->
  parseFloat (radText Number_toString (Finite theta))
  = Finite (round_to 2 (theta / PI))
  /\ Rabs (round_to 2 (theta / PI) - theta / PI) <= / 2 / 10 ^ 2.
Proof.
  intros H. split; [|apply round_to_close].
  unfold radText, Math_PI. rewrite div_finite by apply PI_neq0.
  apply parseFloat_toFixed_suffix;
    [lia | assumption | reflexivity | discriminate | discriminate].
Qed.

End FerrisWheelTexts.

Lemma radText_reads_back_witness :
  (Rabs (0 / PI) < 10 ^ 21)%R
  /\ parseFloat (FerrisWheel.radText no_exponent (Finite 0))
     = Finite (round_to 2 (0 / PI)).
Proof.
  assert (H : (Rabs (0 / PI) < 10 ^ 21)%R).
  { apply small_lt_pow21. rewrite Rdiv_0_l, Rabs_R0. lra. }
  split; [exact H|].
  exact (proj1 (radText_reads_back no_exponent 0 H)).
Defined.

(** ** The plot *)

Section PlotFacts.

Import FunctionPlotter.
Local Open Scope string_scope.
Local Open Scope R_scope.

Variable Number_toString : R -> string.

Lemma round_to_opp (f : nat) (x : R) : round_to f (- x) = - round_to f x.
Proof.
  unfold round_to. rewrite Rabs_Ropp.
  destruct (Rlt_dec (- x) 0) as [H|H]; destruct (Rlt_dec x 0) as [H'|H'];
    try lra; unfold Rdiv; try ring.
  assert (x = 0) by lra. subst x. rewrite Rabs_R0, Rmult_0_l, Rplus_0_l.
  replace (Zfloor (/ 2)) with 0%Z by (symmetry; apply Zfloor_eq; simpl; lra).
  simpl. ring.
Qed.

Lemma round_to_unit (f : nat) (x : R) : Rabs x <= 1 -> Rabs (round_to f x) <= 1.
Proof.
  intros Hx. unfold round_to.
  assert (P : 0 < 10 ^ f) by (apply pow_lt; lra).
  pose proof (Zfloor_bound (Rabs x * 10 ^ f + / 2)) as B.
  set (z := Zfloor (Rabs x * 10 ^ f + / 2)) in *.
  assert (Hz0 : (0 <= z)%Z).
  { apply Zfloor_half_nonneg. apply Rmult_le_pos; [apply Rabs_pos | lra]. }
  assert (Hz1 : (z <= 10 ^ Z.of_nat f)%Z).
  { assert (Hlt : IZR z < IZR (10 ^ Z.of_nat f + 1)).
    { rewrite plus_IZR, <- pow_IZR. simpl IZR at 2. nra. }
    apply lt_IZR in Hlt. lia. }
  apply IZR_le in Hz0, Hz1. rewrite <- pow_IZR in Hz1. simpl IZR in Hz0, Hz1.
  assert (Q : 0 <= IZR z / 10 ^ f <= 1).
  { split.
    - apply Rmult_le_pos; [lra|]. apply Rlt_le, Rinv_0_lt_compat, P.
    - apply Rmult_le_reg_r with (10 ^ f); [exact P|].
      unfold Rdiv. rewrite Rmult_assoc, Rinv_l by lra. lra. }
  apply Rabs_le. destruct (Rlt_dec x 0); unfold Rdiv in *; split; nra.
Qed.

(** X16: The plot stays in a band: every reference value lies between -1 and 1,
    and every transformed value within [|A| + 0.0005] of the offset [k], for
    finite parameters of ordinary size. *)
Theorem plot_values_bounded (a w f c : R) (fuel : nat) :
  (202 <= fuel)%nat -> Rabs a + Rabs c < 10 ^ 21 ->
  exists pts,
    data Number_toString fuel
         {| A := Finite a; omega := Finite w; phi := Finite f; k := Finite c |}
    = Some pts
    /\ forall pt, In pt pts ->
       exists s v,
         standard pt = Finite s /\ -1 <= s <= 1
         /\ y pt = Finite v /\ Rabs (v - c) <= Rabs a + / 2 / 10 ^ 3.
Proof.
  intros Hf Hsize. eexists. split; [now apply data_spec|].
  intros pt Hin.
  destruct (data_In Number_toString fuel _ _ pt Hf
              (data_spec Number_toString fuel _ Hf) Hin) as (x & i & -> & _ & _).
  destruct (sample_finite Number_toString a w f c x) as (_ & S & Y).
  pose proof (Rabs_sin_le_1 (w * x + f * PI)) as Hs.
  assert (Hv : Rabs (a * sin (w * x + f * PI)) <= Rabs a).
  { rewrite Rabs_mult. pose proof (Rabs_pos a). nra. }
  assert (Hsum : Rabs (a * sin (w * x + f * PI) + c) < 10 ^ 21).
  { eapply Rle_lt_trans; [apply Rabs_triang|]. lra. }
  do 2 eexists. split; [exact S|]. split.
  - pose proof (round_to_unit 3 (sin x) (Rabs_sin_le_1 x)) as U.
    unfold Rabs in U. destruct (Rcase_abs (round_to 3 (sin x))); lra.
  - split; [exact (Y Hsum)|].
    pose proof (round_to_close 3 (a * sin (w * x + f * PI) + c)) as C.
    set (v := a * sin (w * x + f * PI) + c) in *.
    replace (round_to 3 v - c)
      with ((round_to 3 v - v) + a * sin (w * x + f * PI)) by (unfold v; ring).
    eapply Rle_trans; [apply Rabs_triang|]. lra.
Qed.

(** X17: After a reset the two curves coincide: with the default parameters,
    which [handleReset] restores from any parameters, every point has the
    same transformed and reference value. *)
Theorem reset_curves_coincide (params : PlotParams) (fuel : nat) :
  (202 <= fuel)%nat ->
  exists pts,
    data Number_toString fuel (handleReset params) = Some pts
    /\ List.length pts = 201%nat
    /\ forall pt, In pt pts -> y pt = standard pt.
Proof.
  intros Hf. unfold handleReset. eexists. split; [now apply data_spec|].
  split; [now rewrite length_map, grid_from_length|].
  intros pt Hin.
  destruct (data_In Number_toString fuel _ _ pt Hf
              (data_spec Number_toString fuel _ Hf) Hin) as (x & i & -> & _ & _).
  unfold defaultParams.
  cbn [sample y standard A omega phi k mul add Math_sin Math_PI].
  replace (1 * sin (1 * x + 0 * PI) + 0) with (sin x); [reflexivity|].
  replace (1 * x + 0 * PI) with x by ring. ring.
Qed.

(** X18: The degenerate parameters give flat lines: with frequency 0 every point
    has the transformed value of [A·sin(φ·π) + k], and with amplitude 0 that
    of [k], the same at all 201 points. *)
Theorem degenerate_plots_flat (a w f c : R) (fuel : nat) :
  (202 <= fuel)%nat ->
  (exists pts,
     data Number_toString fuel
          {| A := Finite a; omega := Finite 0; phi := Finite f; k := Finite c |}
     = Some pts
     /\ forall pt, In pt pts ->
        y pt = parseFloat (toFixed Number_toString
                                   (Finite (a * sin (f * PI) + c)) 3))
  /\ (exists pts,
        data Number_toString fuel
             {| A := Finite 0; omega := Finite w; phi := Finite f; k := Finite c |}
        = Some pts
        /\ forall pt, In pt pts ->
           y pt = parseFloat (toFixed Number_toString (Finite c) 3)).
Proof.
  intros Hf. split.
  - eexists. split; [now apply data_spec|]. intros pt Hin.
    destruct (data_In Number_toString fuel _ _ pt Hf
                (data_spec Number_toString fuel _ Hf) Hin) as (x & i & -> & _ & _).
    cbn [sample y A omega phi k mul add Math_sin Math_PI].
    replace (0 * x + f * PI) with (f * PI) by ring. reflexivity.
  - eexists. split; [now apply data_spec|]. intros pt Hin.
    destruct (data_In Number_toString fuel _ _ pt Hf
                (data_spec Number_toString fuel _ Hf) Hin) as (x & i & -> & _ & _).
    cbn [sample y A omega phi k mul add Math_sin Math_PI].
    replace (0 * sin (w * x + f * PI) + c) with c by ring. reflexivity.
Qed.

(** X19: The reference curve is point-symmetric about the origin: the point
    [200 - i] has the x and the reference value of point [i] with the
    opposite sign. *)
Theorem reference_curve_symmetric (params : PlotParams) (fuel i : nat) :
  (202 <= fuel)%nat -> (i <= 200)%nat ->
  exists pts p q xp s,
    data Number_toString fuel params = Some pts
    /\ nth_error pts i = Some p /\ nth_error pts (200 - i) = Some q
    /\ xVal p = Finite xp /\ xVal q = Finite (- xp)
    /\ standard p = Finite s /\ standard q = Finite (- s).
Proof.
  intros Hf Hi.
  destruct (data_nth Number_toString fuel params i Hf ltac:(lia))
    as (pts & x & D & N & Hx).
  destruct (data_nth Number_toString fuel params (200 - i) Hf ltac:(lia))
    as (pts' & x' & D' & N' & Hx').
  rewrite D in D'. injection D' as <-.
  assert (E : x' = - x).
  { rewrite Hx, Hx', minus_INR by lia.
    replace (INR 200) with 200 by (rewrite INR_IZR_INZ; reflexivity). field. }
  assert (S : forall z, standard (sample Number_toString params (Finite z))
                        = Finite (round_to 3 (sin z))).
  { intros z. cbn [sample standard Math_sin]. apply parseFloat_toFixed.
    apply small_lt_pow21. pose proof (Rabs_sin_le_1 z). lra. }
  exists pts. do 2 eexists. exists x, (round_to 3 (sin x)).
  split; [exact D|]. split; [exact N|]. split; [exact N'|].
  split; [reflexivity|]. split; [cbn [sample xVal]; now rewrite E|].
  split; [apply S|].
  rewrite S, E, sin_neg, round_to_opp. reflexivity.
Qed.

End PlotFacts.

Section PlotInstances.

Import FunctionPlotter.
Local Open Scope R_scope.

Lemma plot_values_bounded_witness :
  (202 <= 202)%nat /\ Rabs 2 + Rabs 1 < 10 ^ 21
  /\ exists pts,
       data no_exponent 202
            {| A := Finite 2; omega := Finite 1; phi := Finite 0.5; k := Finite 1 |}
       = Some pts.
Proof.
  assert (H : Rabs 2 + Rabs 1 < 10 ^ 21).
  { rewrite !Rabs_right by lra. apply small_lt_pow21. lra. }
  split; [lia|]. split; [exact H|].
  destruct (plot_values_bounded no_exponent 2 1 0.5 1 202 (le_n 202) H)
    as (pts & D & _).
  now exists pts.
Defined.

Lemma reset_curves_coincide_witness :
  (202 <= 202)%nat
  /\ exists pts, data no_exponent 202 (handleReset defaultParams) = Some pts
                 /\ List.length pts = 201%nat.
Proof.
  split; [lia|].
  destruct (reset_curves_coincide no_exponent defaultParams 202 (le_n 202))
    as (pts & D & L & _).
  exists pts. split; assumption.
Defined.

Lemma degenerate_plots_flat_witness :
  (202 <= 202)%nat
  /\ exists pts,
       data no_exponent 202
            {| A := Finite 0; omega := Finite 3; phi := Finite 1; k := Finite 2 |}
       = Some pts.
Proof.
  split; [lia|].
  destruct (degenerate_plots_flat no_exponent 2 3 1 2 202 (le_n 202))
    as (_ & pts & D & _).
  now exists pts.
Defined.

Lemma reference_curve_symmetric_witness :
  (202 <= 202)%nat /\ (30 <= 200)%nat
  /\ exists pts p q,
       data no_exponent 202 defaultParams = Some pts
       /\ nth_error pts 30 = Some p /\ nth_error pts 170 = Some q.
Proof.
  split; [lia|]. split; [lia|].
  destruct (reference_curve_symmetric no_exponent defaultParams 202 30
              (le_n 202) ltac:(lia))
    as (pts & p & q & _ & _ & D & P & Q & _).
  exists pts, p, q. repeat split; assumption.
Defined.

End PlotInstances.

(** ** Axis labels and parameter controls *)

Section AxisLabels.

Import FunctionPlotter.
Local Open Scope string_scope.
Local Open Scope R_scope.

Variable Number_toString : R -> string.

Ltac abs_cases :=
  unfold Rabs in *;
  repeat match goal with
         | |- context [Rcase_abs ?e] => destruct (Rcase_abs e)
         | H : context [Rcase_abs ?e] |- _ => destruct (Rcase_abs e)
         end;
  lra.

(** The label of a tick given as a multiple of π. *)
Lemma label_of_multiple (x v : R) :
  x = v * PI ->
  formatXAxis Number_toString (Finite x)
  = if Rltb (Rabs v) 0.01 then "0"
    else if Rltb (Rabs (v - 1)) 0.01 then "π"
    else if Rltb (Rabs (v + 1)) 0.01 then "-π"
    else if Rltb (Rabs (v - 2)) 0.01 then "2π"
    else if Rltb (Rabs (v + 2)) 0.01 then "-2π"
    else if Rltb (Rabs (v - 0.5)) 0.01 then "π/2"
    else if Rltb (Rabs (v + 0.5)) 0.01 then "-π/2"
    else (toFixed Number_toString (Finite v) 1 ++ "π")%string.
Proof.
  intros ->. rewrite formatXAxis_finite. cbv zeta.
  replace (v * PI / PI) with v by (field; apply PI_neq0). reflexivity.
Qed.

(** X20: The x axis of the chart: its nine ticks, from -2π to 2π in steps of
    π/2, are labelled as follows. *)
Theorem axis_labels :
  List.map (formatXAxis Number_toString) ticks
  = ["-2π"; "-1.5π"; "-π"; "-π/2"; "0"; "π/2"; "π"; "1.5π"; "2π"].
Proof.
  assert (generic : forall v z s,
            Rabs v < 10 ^ 21 ->
            IZR z <= Rabs v * 10 ^ 1 + / 2 < IZR z + 1 ->
            ((if Rlt_dec v 0 then "-" else "") ++ fixed_point (Z.to_N z) 1 = s)%string ->
            toFixed Number_toString (Finite v) 1 = s).
  { intros v z s Hv Hz <-. now apply toFixed_eval. }
  unfold ticks, Math_PI. cbn [List.map mul neg].
  rewrite (label_of_multiple _ (-2)) by lra.
  rewrite (label_of_multiple _ (-1.5)) by lra.
  rewrite (label_of_multiple _ (-1)) by lra.
  rewrite (label_of_multiple _ (-0.5)) by lra.
  rewrite (label_of_multiple _ 0) by lra.
  rewrite (label_of_multiple _ 0.5) by lra.
  rewrite (label_of_multiple _ 1) by lra.
  rewrite (label_of_multiple _ 1.5) by lra.
  rewrite (label_of_multiple _ 2) by lra.
  rewrite (generic (-1.5) 15%Z "-1.5"%string);
    [| apply small_lt_pow21; abs_cases | simpl; abs_cases
     | destruct (Rlt_dec (-1.5) 0); [reflexivity | lra]].
  rewrite (generic 1.5 15%Z "1.5"%string);
    [| apply small_lt_pow21; abs_cases | simpl; abs_cases
     | destruct (Rlt_dec 1.5 0); [lra | reflexivity]].
  repeat match goal with
         | |- context [Rltb ?a ?b] =>
             first [rewrite (Rltb_true a b) by abs_cases
                   |rewrite (Rltb_false a b) by abs_cases]
         end.
  reflexivity.
Qed.

Ltac decide_guards :=
  repeat match goal with
         | |- context [Rltb ?a ?b] =>
             first [rewrite (Rltb_true a b) by abs_cases
                   |rewrite (Rltb_false a b) by abs_cases]
         end.

(** X21: The labels of the two half axes mirror each other: from 0.01π on, the
    label of [-x] is the label of [x] with a minus sign in front, for the
    symbolic labels as for the decimal ones. *)
Theorem labels_mirrored (x : R) :
  0.01 <= x / PI ->
  formatXAxis Number_toString (Finite (- x))
  = ("-" ++ formatXAxis Number_toString (Finite x))%string.
Proof.
  intros Hv. set (v := x / PI) in *.
  assert (Ex : x = v * PI) by (unfold v; field; apply PI_neq0).
  rewrite (label_of_multiple x v Ex).
  rewrite (label_of_multiple (- x) (- v)) by (rewrite Ex; ring).
  clearbody v. clear Ex x.
  destruct (Rlt_dec (Rabs (v - 1)) 0.01) as [H1|H1];
    [decide_guards; reflexivity|].
  destruct (Rlt_dec (Rabs (v - 2)) 0.01) as [H2|H2];
    [decide_guards; reflexivity|].
  destruct (Rlt_dec (Rabs (v - 0.5)) 0.01) as [H5|H5];
    [decide_guards; reflexivity|].
  decide_guards. unfold toFixed. rewrite Rabs_Ropp.
  destruct (Rlt_dec (- v) 0); [|lra]. destruct (Rlt_dec v 0); [lra|].
  reflexivity.
Qed.

(** X22: Away from the seven symbolic labels the label is the coefficient [x/π]
    with one decimal: read back as a number it is [x/π] rounded to one
    decimal, within 0.05 of it. *)
Theorem generic_label_reads_back (x : R) :
  let v := x / PI in
  0.01 <= Rabs v -> 0.01 <= Rabs (v - 1) -> 0.01 <= Rabs (v + 1) ->
  0.01 <= Rabs (v - 2) -> 0.01 <= Rabs (v + 2) ->
  0.01 <= Rabs (v - 0.5) -> 0.01 <= Rabs (v + 0.5) ->
  Rabs v < 10 ^ 21 ->
  parseFloat (formatXAxis Number_toString (Finite x)) = Finite (round_to 1 v)
  /\ Rabs (round_to 1 v - v) <= / 2 / 10 ^ 1.
Proof.
  intros v H0 H1 H2 H3 H4 H5 H6 Hv. split; [|apply round_to_close].
  rewrite formatXAxis_finite. cbv zeta. fold v.
  rewrite !Rltb_false by assumption.
  apply parseFloat_toFixed_suffix;
    [lia | assumption | reflexivity | discriminate | discriminate].
Qed.

End AxisLabels.

Section AxisInstances.

Import FunctionPlotter.
Local Open Scope string_scope.
Local Open Scope R_scope.

Lemma labels_mirrored_witness :
  0.01 <= PI / PI
  /\ formatXAxis no_exponent (Finite (- PI))
     = ("-" ++ formatXAxis no_exponent (Finite PI))%string.
Proof.
  assert (H : 0.01 <= PI / PI).
  { unfold Rdiv. rewrite Rinv_r by apply PI_neq0. lra. }
  split; [exact H|]. exact (labels_mirrored no_exponent PI H).
Defined.

Lemma generic_label_reads_back_witness :
  parseFloat (formatXAxis no_exponent (Finite (3 * PI)))
  = Finite (round_to 1 (3 * PI / PI)).
Proof.
  assert (E : 3 * PI / PI = 3) by (field; apply PI_neq0).
  refine (proj1 (generic_label_reads_back no_exponent (3 * PI) _ _ _ _ _ _ _ _));
    rewrite E; try apply small_lt_pow21;
    unfold Rabs; destruct (Rcase_abs _); lra.
Defined.

End AxisInstances.

Section ParameterControls.

Import FunctionPlotter.
Local Open Scope R_scope.

Lemma or_else_zero (v : number) : v <> NaN -> or_else v (Finite 0) = v.
Proof.
  intros Hv. destruct v as [|s|r]; [contradiction | reflexivity |].
  unfold or_else, truthy, Reqb.
  destruct (Req_dec_T r 0) as [->|_]; reflexivity.
Qed.

(** X23: Slider and number input of a parameter agree on every text that reads as
    a number: both store the number read, zero and the infinities included.
    They differ only on a text that is no number, where the slider, having
    no fallback, stores [NaN] itself. *)
Theorem slider_agrees_with_input (value : string) (params : PlotParams) :
  (parseFloat value <> NaN ->
   onRange_A value params = onChange_A value params
   /\ onRange_omega value params = onChange_omega value params
   /\ onRange_phi value params = onChange_phi value params
   /\ onRange_k value params = onChange_k value params
   /\ A (onChange_A value params) = parseFloat value)
  /\ (parseFloat value = NaN ->
      A (onRange_A value params) = NaN
      /\ omega (onRange_omega value params) = NaN
      /\ phi (onRange_phi value params) = NaN
      /\ k (onRange_k value params) = NaN).
Proof.
  split.
  - intros Hv.
    unfold onRange_A, onRange_omega, onRange_phi, onRange_k,
      onChange_A, onChange_omega, onChange_phi, onChange_k.
    cbn [A]. rewrite (or_else_zero _ Hv). repeat split.
  - intros Hv. cbn. now rewrite Hv.
Qed.

Lemma slider_agrees_with_input_witness :
  parseFloat "0" <> NaN
  /\ onRange_A "0" defaultParams = onChange_A "0" defaultParams.
Proof.
  assert (H : parseFloat "0" <> NaN) by discriminate.
  split; [exact H|].
  exact (proj1 (proj1 (slider_agrees_with_input "0" defaultParams) H)).
Defined.

End ParameterControls.
